(** * Optimizer state sharding (fairscale/optim/oss.py)

    A shallow embedding of the [OSS] optimizer wrapper: the greedy
    partitioner, the per-device parameter index, the bucket allocator, the
    broadcast queue, the state consolidation protocol and the state-dict
    round trip, followed by the properties established about them. *)

From Stdlib Require Import ZArith Lia.
From stdpp Require Import gmap strings list fin_maps sorting.

Open Scope nat_scope.

(** ** Data model *)

(** A parameter tensor.  [pid] stands for the Python object identity (tensor
    hashing and equality in dictionaries are by identity), [pdevice] for
    [param.device], [numel] for [param.numel()] and [requires_grad] for the
    trainable flag.  The mutable backing storage lives in a separate store
    ([pdata] of the optimizer object) because it is shared with the bucket buffers. *)
Record Param := mkParam {
  pid : nat;
  pdevice : nat;
  numel : nat;
  requires_grad : bool
}.

#[global] Instance Param_eq_dec : EqDecision Param.
Proof. solve_decision. Defined.

(** Values held by a param-group dictionary: the list of parameters under the
    key ["params"], the list of integer ids that replaces it in a packed
    state dict, or an opaque hyperparameter (learning rate and the like,
    only ever copied around by this module). *)
Inductive pyval :=
  | VParams (ps : list Param)
  | VIds (ids : list nat)
  | VHyper (v : Z).

#[global] Instance pyval_eq_dec : EqDecision pyval.
Proof. solve_decision. Defined.

(** A param group is a Python [dict] with string keys. *)
Abbreviation group := (gmap string pyval).

(** [param_group["params"]]; [None] stands for the [KeyError]. *)
Definition group_params (g : group) : option (list Param) :=
  match g !! "params" with
  | Some (VParams ps) => Some ps
  | _ => None
  end.

(** All the parameters of a list of groups, flattened in order (the
    [itertools.chain] of every group's ["params"] list). *)
Definition groups_params (gs : list group) : list Param :=
  mjoin (map (fun g => default [] (group_params g)) gs).

(** ** Partitioner *)

Module Partitioner.

(** [min(sizes)]; [None] stands for the [ValueError] on an empty list. *)
Definition py_min (sizes : list nat) : option nat :=
  match sizes with
  | [] => None
  | x :: rest => Some (foldl Nat.min x rest)
  end.

(** [sizes.index(x)]: the first position holding [x]. *)
Fixpoint py_index (x : nat) (sizes : list nat) : option nat :=
  match sizes with
  | [] => None
  | y :: rest => if decide (y = x) then Some 0 else S <$> py_index x rest
  end.

(** [sizes.index(min(sizes))] *)
Definition smallest_rank (sizes : list nat) : option nat :=
  m ← py_min sizes; py_index m sizes.

(** What a parameter adds to the running size of its rank: its element count
    when trainable, one otherwise. *)
Definition weight (p : Param) : nat :=
  if requires_grad p then numel p else 1.

(** The inner loop over [param_group["params"]]. *)
Fixpoint assign_params (ps : list Param) (sizes : list nat)
    (param_lists : list (list Param)) : option (list nat * list (list Param)) :=
  match ps with
  | [] => Some (sizes, param_lists)
  | p :: rest =>
      rank ← smallest_rank sizes;
      assign_params rest
        (alter (fun s => s + weight p) rank sizes)
        (alter (fun l => l ++ [p]) rank param_lists)
  end.

(** [copy.copy(param_group)] followed by [param_group_rank["params"] = params] *)
Definition group_with_params (g : group) (params : list Param) : group :=
  <["params" := VParams params]> g.

(** The outer loop over [self.param_groups]; [sizes] is carried from one
    group to the next, the per-rank lists are fresh for every group. *)
Fixpoint partition_groups (world_size : nat) (groups : list group)
    (sizes : list nat) (parts : list (list group)) : option (list (list group)) :=
  match groups with
  | [] => Some parts
  | g :: rest =>
      ps ← group_params g;
      '(sizes', param_lists) ← assign_params ps sizes (replicate world_size []);
      partition_groups world_size rest sizes'
        (zip_with (fun part params => part ++ [group_with_params g params])
                  parts param_lists)
  end.

(** The body of [partition_parameters] once the cache is found empty. *)
Definition partition (world_size : nat) (groups : list group)
    : option (list (list group)) :=
  partition_groups world_size groups (replicate world_size 0)
                   (replicate world_size []).

End Partitioner.

(** ** Parameter index *)

#[global] Instance Param_countable : Countable Param.
Proof.
  apply (inj_countable'
           (fun p => (pid p, pdevice p, numel p, requires_grad p))
           (fun t => match t with (a, b, c, d) => mkParam a b c d end)).
  by intros [].
Defined.

(** A dictionary whose iteration order matters: an association list in
    insertion order. Assigning an existing key keeps its position. *)
Fixpoint od_get {K V : Type} `{EqDecision K} (k : K) (d : list (K * V)) : option V :=
  match d with
  | [] => None
  | (k', v) :: rest => if decide (k' = k) then Some v else od_get k rest
  end.

Fixpoint od_set {K V : Type} `{EqDecision K} (k : K) (v : V) (d : list (K * V))
    : list (K * V) :=
  match d with
  | [] => [(k, v)]
  | (k', v') :: rest =>
      if decide (k' = k) then (k, v) :: rest else (k', v') :: od_set k v rest
  end.

Module Index.

(** The loops of [param_to_rank]: every parameter of every group of rank
    [r]'s partition is mapped to [r]. *)
Definition build_param_rank (parts : list (list group)) : gmap Param nat :=
  foldl (fun m rp => foldl (fun m' p => <[p := rp.1]> m') m (groups_params rp.2))
        ∅ (imap pair parts).

(** [rank_params.sort(key=lambda x: x.numel())]: a stable sort, here by
    insertion from the right. *)
Fixpoint insert_by_numel (p : Param) (l : list Param) : list Param :=
  match l with
  | [] => [p]
  | q :: rest =>
      if decide (numel p <= numel q) then p :: q :: rest
      else q :: insert_by_numel p rest
  end.

Definition sort_by_numel (l : list Param) : list Param :=
  foldr insert_by_numel [] l.

(** One iteration of the first loop of [per_device_params]. [None] stands
    for the [KeyError] of [param_to_rank[param]] or the [IndexError] of the
    per-rank list. *)
Definition index_add (world_size : nat) (pr : gmap Param nat)
    (d : list (nat * list (list Param))) (p : Param)
    : option (list (nat * list (list Param))) :=
  r ← pr !! p;
  let per_rank := default (replicate world_size []) (od_get (pdevice p) d) in
  _ ← per_rank !! r;
  Some (od_set (pdevice p) (alter (fun l => l ++ [p]) r per_rank) d).

Fixpoint index_add_all (world_size : nat) (pr : gmap Param nat)
    (d : list (nat * list (list Param))) (ps : list Param)
    : option (list (nat * list (list Param))) :=
  match ps with
  | [] => Some d
  | p :: rest => d' ← index_add world_size pr d p; index_add_all world_size pr d' rest
  end.

(** The body of [per_device_params] once the cache is found empty. *)
Definition build_index (world_size : nat) (pr : gmap Param nat)
    (groups : list group) : option (list (nat * list (list Param))) :=
  match index_add_all world_size pr [] (groups_params groups) with
  | Some d => Some (map (fun e => (e.1, map sort_by_numel e.2)) d)
  | None => None
  end.

End Index.

(** ** Tensors, buffers and work handles *)

(** The element type of a tensor, by the number of bits of its
    significand. *)
Definition dtype : Type := nat.

Definition float16 : dtype := 11.
Definition float32 : dtype := 24.
Definition float64 : dtype := 53.

(** What a value becomes when it is stored in a tensor of another dtype, as
    [copy_] does: nothing changes between equal dtypes or towards a wider
    one, and towards a narrower one the low bits are lost. Values are held
    as integers, in units of the last place of the widest dtype. *)
Definition cast (from to : dtype) (v : Z) : Z :=
  if decide (to < from)
  then (v / 2 ^ Z.of_nat (from - to) * 2 ^ Z.of_nat (from - to))%Z
  else v.

(** A bucket tensor: [bsize] elements of dtype [bdtype] laid over a storage
    that [resize_] never shrinks. *)
Record Buffer := mkBuffer { storage : list Z; bsize : nat; bdtype : dtype }.

(** [torch.zeros(n, dtype=dt)] *)
Definition zeros (n : nat) (dt : dtype) : Buffer := mkBuffer (replicate n 0%Z) n dt.

(** The visible content of a bucket tensor. *)
Definition contents (b : Buffer) : list Z := take (bsize b) (storage b).

(** What [param.data] designates: storage of its own, of dtype [dt], or the
    range [off, off+len) of the bucket of a (device, rank) pair, whose dtype
    it then has. *)
Inductive Storage :=
  | Own (dt : dtype) (d : list Z)
  | View (dev rk off len : nat).

(** Whether the source of a copy into the range [off, off_next) of a buffer
    shares memory with that range without being that very range;
    [src_range] is the range of the same buffer the source is a view of,
    when it is one. An empty tensor overlaps nothing. *)
Definition overlaps_partially (src_range : option (nat * nat)) (off off_next : nat)
    : bool :=
  match src_range with
  | Some (o, len) =>
      bool_decide (o < off_next /\ off < o + len /\ ~ (o = off /\ o + len = off_next))
  | None => false
  end.

(** [buf[off:off_next].copy_(src)] followed by the [view_as] of the same
    slice: the slice is clamped to the tensor's size, and when it has not the
    length of the source the copy, or else the view, raises ([None]); so
    does a copy from a source that partially overlaps the slice. The values
    are cast from the dtype of the source to the dtype of the buffer. *)
Definition slice_copy (b : Buffer) (off off_next : nat) (src_dtype : dtype)
    (src_range : option (nat * nat)) (src : list Z) : option Buffer :=
  if decide (off_next <= bsize b /\ length src = off_next - off /\ off <= off_next) then
    if overlaps_partially src_range off off_next then None
    else Some (mkBuffer (take off (storage b) ++ (cast src_dtype (bdtype b) <$> src)
                           ++ drop off_next (storage b))
                        (bsize b) (bdtype b))
  else None.

(** [buf.resize_(n)]: a smaller size keeps the storage, a larger one extends
    it (with unspecified values, zeros here). *)
Definition resize_ (b : Buffer) (n : nat) : Buffer :=
  mkBuffer (storage b ++ replicate (n - length (storage b)) 0%Z) n (bdtype b).

(** The tensor an asynchronous broadcast is issued on. *)
Inductive tensor_ref :=
  | TParam (p : Param)
  | TBucket (dev rk : nat).

Record Handle := mkHandle { h_tensor : tensor_ref; h_src : nat }.

(** Modelled from the spec: [Workhandle] of [utils.py], an in-flight
    asynchronous communication operation plus an optional completion
    callback. Callbacks are named by a number. *)
Record Workhandle := mkWorkhandle { handle : Handle; callback : option nat }.

(** Per-parameter optimizer state (a momentum buffer and the like): an opaque
    value and the device it lives on. *)
Record blob := mkBlob { blob_device : nat; blob_val : Z }.

(** The host device [torch.device("cpu")]. *)
Definition cpu : nat := 0.

(** A (packed) state dict: the ["state"] dictionary in insertion order and
    the ["param_groups"] list, whose groups hold ids under ["params"]. *)
Record StateDict := mkStateDict {
  sd_state : list (nat * blob);
  sd_param_groups : list group
}.

(** Modelled from the spec: [recursive_copy_to_device] of [utils.py], which
    copies a nested state structure between compute device and host memory,
    preserving structure. Only tensors move; ids and hyperparameters are
    kept. *)
Definition recursive_copy_to_device (sd : StateDict) (device : nat) : StateDict :=
  mkStateDict (map (fun e => (e.1, mkBlob device (blob_val e.2))) (sd_state sd))
              (sd_param_groups sd).

(** The same mover applied to one per-parameter state. *)
Definition blob_to_device (b : blob) (device : nat) : blob :=
  mkBlob device (blob_val b).

(** Calls into the communication backend and the wrapped optimizer, logged
    in the order they are issued. *)
Inductive reduce_op := ReduceSum | ReduceMax.

Inductive event :=
  | EvOptimStep
  | EvBroadcast (h : Handle)
  | EvWait (h : Handle)
  | EvCallback (c : nat)
  | EvBroadcastObject (src : nat) (payload : option StateDict)
  | EvAllReduce (op : reduce_op).

(** ** The optimizer object *)

(** The attributes of an [OSS] instance, together with the storage of the
    tensors it aliases ([pdata], the [param.data] of every tensor) and the
    log of the external calls it has issued ([trace], oldest first).
    [param_groups] are the public groups, [optim_param_groups] and
    [optim_state] the groups and state of the wrapped optimizer
    [self.optim], [optim_defaults] the defaults that optimizer fills in.
    [pgroup] is [self.group]: [None] for [dist.group.WORLD], otherwise the
    global ranks of the members. [work_handles] is the deque, oldest
    first. *)
Record OSS := mkOSS {
  param_groups : list group;
  defaults : group;
  optim_param_groups : list group;
  optim_defaults : group;
  optim_state : list (Param * blob);
  in_super_constructor : bool;
  _per_device_params : list (nat * list (list Param));
  _param_rank : gmap Param nat;
  _partition_parameters : list (list group);
  world_size : nat;
  rank : nat;
  pgroup : option (list nat);
  global_rank : nat;
  _all_states : list StateDict;
  _device : nat;
  buckets : gmap nat (list Buffer);
  bucket_size : nat;
  should_bucket_param : list bool;
  work_handles : list Workhandle;
  _max_work_handles : Z;
  pdata : gmap Param Storage;
  trace : list event
}.

(** Attribute assignment, one function per assigned attribute. *)
Definition set_param_groups (v : list group) (s : OSS) : OSS :=
  mkOSS v (defaults s) (optim_param_groups s) (optim_defaults s)
    (optim_state s) (in_super_constructor s) (_per_device_params s)
    (_param_rank s) (_partition_parameters s) (world_size s) (rank s)
    (pgroup s) (global_rank s) (_all_states s) (_device s) (buckets s)
    (bucket_size s) (should_bucket_param s) (work_handles s)
    (_max_work_handles s) (pdata s) (trace s).

Definition set_optim_param_groups (v : list group) (s : OSS) : OSS :=
  mkOSS (param_groups s) (defaults s) v (optim_defaults s) (optim_state s)
    (in_super_constructor s) (_per_device_params s) (_param_rank s)
    (_partition_parameters s) (world_size s) (rank s) (pgroup s)
    (global_rank s) (_all_states s) (_device s) (buckets s) (bucket_size s)
    (should_bucket_param s) (work_handles s) (_max_work_handles s) (pdata s)
    (trace s).

Definition set_optim_state (v : list (Param * blob)) (s : OSS) : OSS :=
  mkOSS (param_groups s) (defaults s) (optim_param_groups s)
    (optim_defaults s) v (in_super_constructor s) (_per_device_params s)
    (_param_rank s) (_partition_parameters s) (world_size s) (rank s)
    (pgroup s) (global_rank s) (_all_states s) (_device s) (buckets s)
    (bucket_size s) (should_bucket_param s) (work_handles s)
    (_max_work_handles s) (pdata s) (trace s).

Definition set_in_super_constructor (v : bool) (s : OSS) : OSS :=
  mkOSS (param_groups s) (defaults s) (optim_param_groups s)
    (optim_defaults s) (optim_state s) v (_per_device_params s)
    (_param_rank s) (_partition_parameters s) (world_size s) (rank s)
    (pgroup s) (global_rank s) (_all_states s) (_device s) (buckets s)
    (bucket_size s) (should_bucket_param s) (work_handles s)
    (_max_work_handles s) (pdata s) (trace s).

Definition set_per_device_params (v : list (nat * list (list Param))) (s : OSS) : OSS :=
  mkOSS (param_groups s) (defaults s) (optim_param_groups s)
    (optim_defaults s) (optim_state s) (in_super_constructor s) v
    (_param_rank s) (_partition_parameters s) (world_size s) (rank s)
    (pgroup s) (global_rank s) (_all_states s) (_device s) (buckets s)
    (bucket_size s) (should_bucket_param s) (work_handles s)
    (_max_work_handles s) (pdata s) (trace s).

Definition set_param_rank (v : gmap Param nat) (s : OSS) : OSS :=
  mkOSS (param_groups s) (defaults s) (optim_param_groups s)
    (optim_defaults s) (optim_state s) (in_super_constructor s)
    (_per_device_params s) v (_partition_parameters s) (world_size s) (rank s)
    (pgroup s) (global_rank s) (_all_states s) (_device s) (buckets s)
    (bucket_size s) (should_bucket_param s) (work_handles s)
    (_max_work_handles s) (pdata s) (trace s).

Definition set_partition_parameters (v : list (list group)) (s : OSS) : OSS :=
  mkOSS (param_groups s) (defaults s) (optim_param_groups s)
    (optim_defaults s) (optim_state s) (in_super_constructor s)
    (_per_device_params s) (_param_rank s) v (world_size s) (rank s)
    (pgroup s) (global_rank s) (_all_states s) (_device s) (buckets s)
    (bucket_size s) (should_bucket_param s) (work_handles s)
    (_max_work_handles s) (pdata s) (trace s).

Definition set_global_rank (v : nat) (s : OSS) : OSS :=
  mkOSS (param_groups s) (defaults s) (optim_param_groups s)
    (optim_defaults s) (optim_state s) (in_super_constructor s)
    (_per_device_params s) (_param_rank s) (_partition_parameters s)
    (world_size s) (rank s) (pgroup s) v (_all_states s) (_device s)
    (buckets s) (bucket_size s) (should_bucket_param s) (work_handles s)
    (_max_work_handles s) (pdata s) (trace s).

Definition set_all_states (v : list StateDict) (s : OSS) : OSS :=
  mkOSS (param_groups s) (defaults s) (optim_param_groups s)
    (optim_defaults s) (optim_state s) (in_super_constructor s)
    (_per_device_params s) (_param_rank s) (_partition_parameters s)
    (world_size s) (rank s) (pgroup s) (global_rank s) v (_device s)
    (buckets s) (bucket_size s) (should_bucket_param s) (work_handles s)
    (_max_work_handles s) (pdata s) (trace s).

Definition set_device (v : nat) (s : OSS) : OSS :=
  mkOSS (param_groups s) (defaults s) (optim_param_groups s)
    (optim_defaults s) (optim_state s) (in_super_constructor s)
    (_per_device_params s) (_param_rank s) (_partition_parameters s)
    (world_size s) (rank s) (pgroup s) (global_rank s) (_all_states s) v
    (buckets s) (bucket_size s) (should_bucket_param s) (work_handles s)
    (_max_work_handles s) (pdata s) (trace s).

Definition set_buckets (v : gmap nat (list Buffer)) (s : OSS) : OSS :=
  mkOSS (param_groups s) (defaults s) (optim_param_groups s)
    (optim_defaults s) (optim_state s) (in_super_constructor s)
    (_per_device_params s) (_param_rank s) (_partition_parameters s)
    (world_size s) (rank s) (pgroup s) (global_rank s) (_all_states s)
    (_device s) v (bucket_size s) (should_bucket_param s) (work_handles s)
    (_max_work_handles s) (pdata s) (trace s).

Definition set_bucket_size (v : nat) (s : OSS) : OSS :=
  mkOSS (param_groups s) (defaults s) (optim_param_groups s)
    (optim_defaults s) (optim_state s) (in_super_constructor s)
    (_per_device_params s) (_param_rank s) (_partition_parameters s)
    (world_size s) (rank s) (pgroup s) (global_rank s) (_all_states s)
    (_device s) (buckets s) v (should_bucket_param s) (work_handles s)
    (_max_work_handles s) (pdata s) (trace s).

Definition set_should_bucket_param (v : list bool) (s : OSS) : OSS :=
  mkOSS (param_groups s) (defaults s) (optim_param_groups s)
    (optim_defaults s) (optim_state s) (in_super_constructor s)
    (_per_device_params s) (_param_rank s) (_partition_parameters s)
    (world_size s) (rank s) (pgroup s) (global_rank s) (_all_states s)
    (_device s) (buckets s) (bucket_size s) v (work_handles s)
    (_max_work_handles s) (pdata s) (trace s).

Definition set_work_handles (v : list Workhandle) (s : OSS) : OSS :=
  mkOSS (param_groups s) (defaults s) (optim_param_groups s)
    (optim_defaults s) (optim_state s) (in_super_constructor s)
    (_per_device_params s) (_param_rank s) (_partition_parameters s)
    (world_size s) (rank s) (pgroup s) (global_rank s) (_all_states s)
    (_device s) (buckets s) (bucket_size s) (should_bucket_param s) v
    (_max_work_handles s) (pdata s) (trace s).

Definition set_max_work_handles (v : Z) (s : OSS) : OSS :=
  mkOSS (param_groups s) (defaults s) (optim_param_groups s)
    (optim_defaults s) (optim_state s) (in_super_constructor s)
    (_per_device_params s) (_param_rank s) (_partition_parameters s)
    (world_size s) (rank s) (pgroup s) (global_rank s) (_all_states s)
    (_device s) (buckets s) (bucket_size s) (should_bucket_param s)
    (work_handles s) v (pdata s) (trace s).

Definition set_pdata (v : gmap Param Storage) (s : OSS) : OSS :=
  mkOSS (param_groups s) (defaults s) (optim_param_groups s)
    (optim_defaults s) (optim_state s) (in_super_constructor s)
    (_per_device_params s) (_param_rank s) (_partition_parameters s)
    (world_size s) (rank s) (pgroup s) (global_rank s) (_all_states s)
    (_device s) (buckets s) (bucket_size s) (should_bucket_param s)
    (work_handles s) (_max_work_handles s) v (trace s).

Definition set_trace (v : list event) (s : OSS) : OSS :=
  mkOSS (param_groups s) (defaults s) (optim_param_groups s)
    (optim_defaults s) (optim_state s) (in_super_constructor s)
    (_per_device_params s) (_param_rank s) (_partition_parameters s)
    (world_size s) (rank s) (pgroup s) (global_rank s) (_all_states s)
    (_device s) (buckets s) (bucket_size s) (should_bucket_param s)
    (work_handles s) (_max_work_handles s) (pdata s) v.
(** Methods are state transformers that either return a value or raise;
    attributes assigned before an exception stay assigned. *)
Definition M (A : Type) : Type := OSS -> option A * OSS.

Definition ret {A : Type} (a : A) : M A := fun s => (Some a, s).

Definition bind {A B : Type} (m : M A) (k : A -> M B) : M B :=
  fun s => match m s with
           | (Some a, s') => k a s'
           | (None, s') => (None, s')
           end.

Definition raise {A : Type} : M A := fun s => (None, s).
Definition get : M OSS := fun s => (Some s, s).
Definition modify (f : OSS -> OSS) : M unit := fun s => (Some tt, f s).

(** A lookup that raises when the key or index is missing. *)
Definition lift {A : Type} (o : option A) : M A :=
  match o with Some a => ret a | None => raise end.

Declare Scope oss_scope.
Delimit Scope oss_scope with oss.
Notation "x <- m ;; k" := (bind m (fun x => k))
  (at level 100, m at next level, right associativity) : oss_scope.
Notation "m ;;; k" := (bind m (fun _ => k))
  (at level 100, right associativity) : oss_scope.
Open Scope oss_scope.

(** [for x in l: body(x)] *)
Fixpoint for_each {A : Type} (l : list A) (body : A -> M unit) : M unit :=
  match l with
  | [] => ret tt
  | x :: rest => body x ;;; for_each rest body
  end.

(** A loop that threads a local variable through its iterations. *)
Fixpoint for_fold {A B : Type} (l : list A) (acc : B) (body : A -> B -> M B) : M B :=
  match l with
  | [] => ret acc
  | x :: rest => acc' <- body x acc ;; for_fold rest acc' body
  end.

Definition log (e : event) : M unit :=
  modify (fun s => set_trace (trace s ++ [e]) s).

(** [get_global_rank(group, rank)]: the identity on the world group,
    otherwise the global rank of the member, as the process group has it. *)
Definition get_global_rank (g : option (list nat)) (r : nat) : option nat :=
  match g with
  | None => Some r
  | Some members => members !! r
  end.

(** *** Cached partition and index *)

Definition partition_parameters : M (list (list group)) :=
  s <- get ;;
  if decide (length (_partition_parameters s) = 0) then
    parts <- lift (Partitioner.partition (world_size s) (param_groups s)) ;;
    modify (set_partition_parameters parts) ;;;
    ret parts
  else ret (_partition_parameters s).

Definition param_to_rank : M (gmap Param nat) :=
  s <- get ;;
  if decide (size (_param_rank s) = 0) then
    parts <- partition_parameters ;;
    modify (set_param_rank (Index.build_param_rank parts)) ;;;
    ret (Index.build_param_rank parts)
  else ret (_param_rank s).

(** [param_to_rank] is first read inside the loop over the parameters, so
    nothing is computed when there is no parameter at all. *)
Definition per_device_params : M (list (nat * list (list Param))) :=
  s <- get ;;
  if decide (length (_per_device_params s) = 0) then
    match groups_params (param_groups s) with
    | [] => ret []
    | _ :: _ =>
        pr <- param_to_rank ;;
        d <- lift (Index.build_index (world_size s) pr (param_groups s)) ;;
        modify (set_per_device_params d) ;;;
        ret d
    end
  else ret (_per_device_params s).

(** *** Bucket allocator *)

(** [param.data.flatten()]: the elements [param.data] designates now. *)
Definition read_data (s : OSS) (p : Param) : option (list Z) :=
  match pdata s !! p with
  | Some (Own _ d) => Some d
  | Some (View dev rk off len) =>
      match buckets s !! dev with
      | Some per_rank =>
          match per_rank !! rk with
          | Some b => Some (take len (drop off (storage b)))
          | None => None
          end
      | None => None
      end
  | None => None
  end.

(** [self.buckets[device][dst_rank]] *)
Definition get_bucket (s : OSS) (device dst_rank : nat) : option Buffer :=
  match buckets s !! device with
  | Some per_rank => per_rank !! dst_rank
  | None => None
  end.

Definition put_bucket (device dst_rank : nat) (b : Buffer) (s : OSS) : OSS :=
  match buckets s !! device with
  | Some per_rank => set_buckets (<[device := <[dst_rank := b]> per_rank]> (buckets s)) s
  | None => s
  end.

(** [param.data.dtype]: the dtype of the storage [param.data] designates
    now. *)
Definition data_dtype (s : OSS) (p : Param) : option dtype :=
  match pdata s !! p with
  | Some (Own dt _) => Some dt
  | Some (View dev rk _ _) => bdtype <$> get_bucket s dev rk
  | None => None
  end.

(** The range of the bucket of [(device, dst_rank)] that [param.data] is a
    view of, when it is one. *)
Definition aliased_range (s : OSS) (device dst_rank : nat) (p : Param)
    : option (nat * nat) :=
  match pdata s !! p with
  | Some (View dev rk off len) =>
      if decide (dev = device /\ rk = dst_rank) then Some (off, len) else None
  | _ => None
  end.

(** The body of the loop over the parameters of one (device, rank) pair;
    the running [offset] is returned. *)
Definition bucket_param (device dst_rank : nat) (param : Param) (offset : nat) : M nat :=
  s <- get ;;
  if requires_grad param && bool_decide (offset + numel param < bucket_size s) then
    modify (fun s => set_should_bucket_param (should_bucket_param s ++ [true]) s) ;;;
    (if decide (offset = 0)
     then modify (fun s => set_max_work_handles (_max_work_handles s + 1)%Z s)
     else ret tt) ;;;
    let offset_next := offset + numel param in
    src <- lift (read_data s param) ;;
    src_dtype <- lift (data_dtype s param) ;;
    b <- lift (get_bucket s device dst_rank) ;;
    b' <- lift (slice_copy b offset offset_next src_dtype
                  (aliased_range s device dst_rank param) src) ;;
    modify (put_bucket device dst_rank b') ;;;
    modify (fun s => set_pdata (<[param := View device dst_rank offset (numel param)]> (pdata s)) s) ;;;
    ret offset_next
  else
    modify (fun s => set_should_bucket_param (should_bucket_param s ++ [false]) s) ;;;
    ret offset.

(** One (device, rank) pair: the walk from offset 0, then the resize. *)
Definition bucket_rank (device : nat) (rp : nat * list Param) : M unit :=
  offset <- for_fold rp.2 0 (bucket_param device rp.1) ;;
  s <- get ;;
  b <- lift (get_bucket s device rp.1) ;;
  modify (put_bucket device rp.1 (resize_ b offset)).

Definition bucket_device (dp : nat * list (list Param)) : M unit :=
  for_each (imap pair dp.2) (bucket_rank dp.1).

Definition count_false (l : list bool) : Z :=
  Z.of_nat (length (filter (fun b => b = false) l)).

Definition _setup_bucket_strategy : M unit :=
  modify (set_max_work_handles 0%Z) ;;;
  pdp <- per_device_params ;;
  for_each pdp bucket_device ;;;
  modify (fun s => set_max_work_handles
                     (_max_work_handles s + count_false (should_bucket_param s))%Z s).

(** *** Hyperparameter synchronisation *)

(** The entries of a group other than ["params"]. *)
Definition hyper (g : group) : group :=
  filter (fun kv => kv.1 <> "params") g.

(** One iteration of [_sync_param_groups]: for every key [k] of the local
    group but ["params"], either [global_group[k] = local_group[k]], or
    [local_group[k] = global_group[k]] when the global group has [k]. *)
Definition sync_group (local_to_global : bool) (global_group local_group : group)
    : group * group :=
  if local_to_global then (hyper local_group ∪ global_group, local_group)
  else (global_group,
        map_imap (fun k v => if decide (k = "params") then Some v
                             else Some (default v (global_group !! k)))
                 local_group).

(** The loop over [zip(self.param_groups, self.optim.param_groups)]. *)
Fixpoint sync_groups (local_to_global : bool) (globals locals : list group)
    : list group * list group :=
  match globals, locals with
  | g :: gs, l :: ls =>
      let gl := sync_group local_to_global g l in
      let rest := sync_groups local_to_global gs ls in
      (gl.1 :: rest.1, gl.2 :: rest.2)
  | _, _ => (globals, locals)
  end.

Definition _sync_param_groups (local_to_global : bool) : M unit :=
  modify (fun s =>
    let r := sync_groups local_to_global (param_groups s) (optim_param_groups s) in
    set_optim_param_groups r.2 (set_param_groups r.1 s)).

(** ** Collaborators *)

(** What the wrapped optimizer sees and updates in place during its
    [step]: its groups, its state and the storage of the tensors. *)
Record OptimView := mkOptimView {
  ov_groups : list group;
  ov_state : list (Param * blob);
  ov_pdata : gmap Param Storage;
  ov_buckets : gmap nat (list Buffer)
}.

(** The external collaborators: the wrapped optimizer ([optim_step], which
    evaluates the closure when there is one; [pack_id], the id its
    [state_dict] gives to the parameter found at a flat position), the
    communication backend ([wait_effect], what waiting on a broadcast does
    to the local tensors) and the import-time flag
    [_torch_broadcast_object]. *)
Class Collaborators := {
  closure : Type;
  loss : Type;
  optim_step : option closure -> OptimView -> option loss * OptimView;
  pack_id : nat -> Param -> nat;
  wait_effect : Handle -> gmap Param Storage * gmap nat (list Buffer) ->
                gmap Param Storage * gmap nat (list Buffer);
  _torch_broadcast_object : bool
}.

Section Methods.
Context `{Collab : Collaborators}.

(** *** Broadcast coordinator *)

(** [dist.broadcast(tensor, src, group, async_op=True)] wrapped in a
    [Workhandle] without callback and appended to the deque. *)
Definition issue_broadcast (t : tensor_ref) (src : nat) : M unit :=
  log (EvBroadcast (mkHandle t src)) ;;;
  modify (fun s => set_work_handles
                     (work_handles s ++ [mkWorkhandle (mkHandle t src) None]) s).

(** The loop of [_consume_work_handles]; a callback does not touch the
    deque. *)
Fixpoint consume (q : list Workhandle) : M unit :=
  match q with
  | [] => ret tt
  | w :: rest =>
      modify (set_work_handles rest) ;;;
      log (EvWait (handle w)) ;;;
      modify (fun s =>
        let m := wait_effect (handle w) (pdata s, buckets s) in
        set_buckets m.2 (set_pdata m.1 s)) ;;;
      match callback w with
      | Some c => log (EvCallback c)
      | None => ret tt
      end ;;;
      consume rest
  end.

Definition _consume_work_handles : M unit :=
  s <- get ;; consume (work_handles s).

(** The loop over the parameters of one source rank: a direct broadcast for
    every parameter that is not bucketed; [i_param] is threaded. *)
Definition broadcast_param (global_src_rank : nat) (param : Param) (i_param : nat)
    : M nat :=
  s <- get ;;
  flag <- lift (should_bucket_param s !! i_param) ;;
  (if flag : bool then ret tt else issue_broadcast (TParam param) global_src_rank) ;;;
  ret (i_param + 1).

Definition broadcast_rank (device : nat) (rp : nat * list Param) (i_param : nat)
    : M nat :=
  s <- get ;;
  global_src_rank <- lift (get_global_rank (pgroup s) rp.1) ;;
  i <- for_fold rp.2 i_param (broadcast_param global_src_rank) ;;
  issue_broadcast (TBucket device rp.1) global_src_rank ;;;
  ret i.

(** [zip(enumerate(device_params), buckets)] stops at the shorter one. *)
Definition broadcast_device (dp : nat * list (list Param)) (i_param : nat) : M nat :=
  s <- get ;;
  bs <- lift (buckets s !! dp.1) ;;
  for_fold (take (length bs) (imap pair dp.2)) i_param (broadcast_rank dp.1).

Definition _broadcast_params : M unit :=
  pdp <- per_device_params ;;
  _ <- for_fold pdp 0 broadcast_device ;;
  _consume_work_handles.

(** *** step *)

Definition run_optim_step (c : option closure) : M (option loss) :=
  log EvOptimStep ;;;
  s <- get ;;
  let r := optim_step c (mkOptimView (optim_param_groups s) (optim_state s)
                                     (pdata s) (buckets s)) in
  modify (fun s => set_optim_param_groups (ov_groups r.2)
                     (set_optim_state (ov_state r.2)
                        (set_pdata (ov_pdata r.2)
                           (set_buckets (ov_buckets r.2) s)))) ;;;
  ret r.1.

Definition step (c : option closure) : M (option loss) :=
  _sync_param_groups false ;;;
  l <- run_optim_step c ;;
  _broadcast_params ;;;
  _sync_param_groups true ;;;
  ret l.

(** *** State consolidation *)

(** [param_mappings.update(...)] for the parameters of one group of the
    wrapped optimizer: a parameter without an id yet gets the id of its flat
    position. *)
Definition update_mappings (start_index : nat) (ps : list Param)
    (m : gmap Param nat) : gmap Param nat :=
  foldl (fun acc ip => match m !! ip.2 with
                       | Some _ => acc
                       | None => <[ip.2 := pack_id ip.1 ip.2]> acc
                       end)
        m (imap (fun i p => (start_index + i, p)) ps).

(** [pack_group] over the groups of the wrapped optimizer: ["params"] is
    replaced by the ids, the other keys are kept. *)
Fixpoint pack_groups (start_index : nat) (m : gmap Param nat) (groups : list group)
    : list group * gmap Param nat :=
  match groups with
  | [] => ([], m)
  | g :: rest =>
      let ps := default [] (group_params g) in
      let m' := update_mappings start_index ps m in
      let r := pack_groups (start_index + length ps) m' rest in
      (<["params" := VIds (omap (fun p => m' !! p) ps)]> g :: r.1, r.2)
  end.

(** [self.optim.state_dict()], the packing done by the wrapped optimizer:
    the state is re-keyed by the ids, in its own order. *)
Definition optim_state_dict (groups : list group) (state : list (Param * blob))
    : StateDict :=
  let r := pack_groups 0 ∅ groups in
  mkStateDict (omap (fun e => match r.2 !! e.1 with
                              | Some k => Some (k, e.2)
                              | None => None
                              end) state)
              r.1.

Definition local_state_dict (s : OSS) : StateDict :=
  optim_state_dict (optim_param_groups s) (optim_state s).

(** [dist.broadcast_object_list], or [broadcast_object] of [utils.py] on an
    older torch (modelled from the spec: whole-shard transfer from one source
    rank to all): one collective call with a source rank; [payload] is what
    this rank passes in ([None] for the placeholder [[0]]). *)
Definition broadcast_object (src : nat) (payload : option StateDict) : M unit :=
  log (EvBroadcastObject src payload).

(** [_broadcast_state_dict]: send this rank's shard, discard the others. *)
Definition _broadcast_state_dict : M unit :=
  s <- get ;;
  let local_cpu_state := recursive_copy_to_device (local_state_dict s) cpu in
  for_each (seq 0 (world_size s)) (fun rk =>
    if decide (rk = rank s) then
      if _torch_broadcast_object
      then broadcast_object (global_rank s) (Some local_cpu_state)
      else broadcast_object (global_rank s) (Some (local_state_dict s))
    else
      g <- lift (get_global_rank (pgroup s) rk) ;;
      broadcast_object g None).

(** [_collect_sharded_states]; [net g] is the object the broadcast whose
    source is the global rank [g] delivers to this rank. A delivered object
    that is not a state dict cannot be stored in the typed list and raises
    here. *)
Definition _collect_sharded_states (net : nat -> option StateDict)
    : M (list StateDict) :=
  s <- get ;;
  for_fold (seq 0 (world_size s)) [] (fun rk all_states =>
    if decide (rk = rank s) then
      broadcast_object (global_rank s) None ;;;
      ret (all_states ++ [recursive_copy_to_device (local_state_dict s) cpu])
    else
      g <- lift (get_global_rank (pgroup s) rk) ;;
      broadcast_object g None ;;;
      replica_state <- lift (net g) ;;
      ret (all_states ++ [recursive_copy_to_device replica_state cpu])).

Definition consolidate_state_dict (net : nat -> option StateDict)
    (recipient_rank : nat) : M unit :=
  _sync_param_groups false ;;;
  s <- get ;;
  if decide (rank s = recipient_rank) then
    all_states <- _collect_sharded_states net ;;
    modify (set_all_states all_states)
  else _broadcast_state_dict.

(** [fpg["params"].extend(pg["params"])] on packed groups. *)
Definition extend_params (fpg pg : group) : option group :=
  match fpg !! "params", pg !! "params" with
  | Some (VIds a), Some (VIds b) => Some (<["params" := VIds (a ++ b)]> fpg)
  | _, _ => None
  end.

(** The loop over [zip(flat_param_groups, s["param_groups"])]. *)
Fixpoint extend_groups (flat pgs : list group) : option (list group) :=
  match flat, pgs with
  | f :: fs, p :: ps =>
      match extend_params f p, extend_groups fs ps with
      | Some f', Some fs' => Some (f' :: fs')
      | _, _ => None
      end
  | _, _ => Some flat
  end.

(** The local variables of [state_dict]: [fl_alias] is the position in
    [_all_states] of the shard whose group list [flat_param_groups] is (the
    very same list object, extended in place). *)
Record Flat := mkFlat {
  fl_alias : option nat;
  fl_param_groups : list group;
  fl_state : list (nat * blob);
  fl_i_tensor : nat
}.

Definition flatten_shard (sh : nat * StateDict) (f : Flat) : option Flat :=
  let groups :=
    if decide (length (fl_param_groups f) = 0)
    then Some (Some sh.1, sd_param_groups sh.2)
    else match extend_groups (fl_param_groups f) (sd_param_groups sh.2) with
         | Some gs => Some (fl_alias f, gs)
         | None => None
         end in
  match groups with
  | Some (al, gs) =>
      Some (mkFlat al gs
              (fl_state f ++ imap (fun j e => (fl_i_tensor f + j, e.2)) (sd_state sh.2))
              (fl_i_tensor f + length (sd_state sh.2)))
  | None => None
  end.

Fixpoint flatten_shards (l : list (nat * StateDict)) (f : Flat) : option Flat :=
  match l with
  | [] => Some f
  | sh :: rest =>
      match flatten_shard sh f with
      | Some f' => flatten_shards rest f'
      | None => None
      end
  end.

Definition state_dict : M StateDict :=
  s <- get ;;
  if decide (length (_all_states s) = 0) then ret (local_state_dict s)
  else
    f <- lift (flatten_shards (imap pair (_all_states s)) (mkFlat None [] [] 0)) ;;
    match fl_alias f with
    | Some i =>
        modify (fun s => set_all_states
          (alter (fun sd => mkStateDict (sd_state sd) (fl_param_groups f)) i
                 (_all_states s)) s)
    | None => ret tt
    end ;;;
    ret (mkStateDict (fl_state f) (fl_param_groups f)).

(** *** Restoring a state dict *)

(** [g["params"]] of a saved group. *)
Definition group_ids (g : group) : option (list nat) :=
  match g !! "params" with
  | Some (VIds ids) => Some ids
  | _ => None
  end.

Fixpoint chain_ids (gs : list group) : option (list nat) :=
  match gs with
  | [] => Some []
  | g :: rest =>
      match group_ids g, chain_ids rest with
      | Some ids, Some r => Some (ids ++ r)
      | _, _ => None
      end
  end.

Fixpoint chain_params (gs : list group) : option (list Param) :=
  match gs with
  | [] => Some []
  | g :: rest =>
      match group_params g, chain_params rest with
      | Some ps, Some r => Some (ps ++ r)
      | _, _ => None
      end
  end.

(** A dict comprehension over pairs: a later pair overrides an earlier one
    with the same key. *)
Definition py_dict {V : Type} (l : list (nat * V)) : gmap nat V :=
  foldl (fun m kv => <[kv.1 := kv.2]> m) ∅ l.

(** The loop over [state_dict["state"].items()]. *)
Definition restore_state (id_map : gmap nat Param) (saved : list (nat * blob))
    (state : list (Param * blob)) : list (Param * blob) :=
  foldl (fun st kv => match id_map !! kv.1 with
                      | Some param => od_set param (blob_to_device kv.2 (pdevice param)) st
                      | None => st
                      end)
        state saved.

(** The loop over [zip(saved_groups, self.param_groups)]: every key of the
    saved group but ["params"] overwrites the public group's. *)
Fixpoint update_keys (saved_groups pgs : list group) : list group :=
  match saved_groups, pgs with
  | fpg :: fs, pg :: ps => (hyper fpg ∪ pg) :: update_keys fs ps
  | _, _ => pgs
  end.

Definition clear_caches : M unit :=
  modify (set_partition_parameters []) ;;;
  modify (set_per_device_params []) ;;;
  modify (set_param_rank ∅).

Definition load_state_dict (sd : StateDict) : M unit :=
  s <- get ;;
  old_ids <- lift (chain_ids (sd_param_groups sd)) ;;
  ps <- lift (chain_params (optim_param_groups s)) ;;
  let id_map := py_dict (zip old_ids ps) in
  modify (fun s => set_optim_state (restore_state id_map (sd_state sd) (optim_state s)) s) ;;;
  modify (fun s => set_param_groups (update_keys (sd_param_groups sd) (param_groups s)) s) ;;;
  _sync_param_groups false ;;;
  clear_caches ;;;
  _setup_bucket_strategy.

(** *** Adding a group *)

(** [Optimizer.add_param_group] of the base class: the defaults are filled
    in for the missing keys and the group is appended. *)
Definition base_add_param_group (dflt : group) (g : group) (groups : list group)
    : list group :=
  groups ++ [g ∪ dflt].

Definition add_param_group (param_group : group) : M unit :=
  modify (fun s => set_param_groups
                     (base_add_param_group (defaults s) param_group (param_groups s)) s) ;;;
  s <- get ;;
  if in_super_constructor s then ret tt
  else
    clear_caches ;;;
    parts <- partition_parameters ;;
    param_groups_rank <- lift (parts !! rank s) ;;
    (if decide (length param_groups_rank = length (optim_param_groups s) + 1) then
       g <- lift (last param_groups_rank) ;;
       modify (fun s => set_optim_param_groups
                          (base_add_param_group (optim_defaults s) g
                                                (optim_param_groups s)) s)
     else ret tt) ;;;
    _setup_bucket_strategy.

(** *** Construction *)

(** The attributes before [__init__] runs. *)
Definition blank (default optim_class_defaults : group) (ws rk : nat)
    (pg : option (list nat)) (data : gmap Param Storage) : OSS :=
  mkOSS [] default [] (default ∪ optim_class_defaults) [] true [] ∅ [] ws rk pg 0
        [] 0 ∅ 0 [] [] (-1)%Z data [].

Definition model_size (pr : gmap Param nat) : nat :=
  sum_list (numel <$> (map_to_list pr).*1).

(** One buffer per rank and per device, of the dtype of
    [per_device[0][0]], the smallest tensor of rank 0 on the device. *)
Definition allocate_buckets (dp : nat * list (list Param)) : M unit :=
  p <- lift (dp.2 !! 0 ≫= head) ;;
  s <- get ;;
  dt <- lift (data_dtype s p) ;;
  modify (fun s => set_buckets
    (<[dp.1 := replicate (length dp.2) (zeros (bucket_size s) dt)]> (buckets s)) s).

Definition init (params : list group) (broadcast_buffer_size : nat) : M unit :=
  for_each params add_param_group ;;;
  modify (set_in_super_constructor false) ;;;
  s <- get ;;
  g <- lift (get_global_rank (pgroup s) (rank s)) ;;
  modify (set_global_rank g) ;;;
  parts <- partition_parameters ;;
  shard <- lift (parts !! rank s) ;;
  modify (set_optim_param_groups
            (foldl (fun acc g => base_add_param_group (optim_defaults s) g acc) [] shard)) ;;;
  _sync_param_groups true ;;;
  modify (set_all_states []) ;;;
  pdp <- per_device_params ;;
  first <- lift (head pdp) ;;
  modify (set_device first.1) ;;;
  modify (set_buckets ∅) ;;;
  pr <- param_to_rank ;;
  modify (set_bucket_size (broadcast_buffer_size `min` model_size pr)) ;;;
  pdp <- per_device_params ;;
  for_each pdp allocate_buckets ;;;
  modify (set_should_bucket_param []) ;;;
  modify (set_work_handles []) ;;;
  modify (set_max_work_handles (-1)%Z) ;;;
  _setup_bucket_strategy.

End Methods.

(** ** Gradient clipping *)

(** The tensor arithmetic [clip_grad_norm] relies on, kept abstract: the
    floats ([scalar]) and tensors of the numerical library, and the result
    the all-reduce leaves on this rank. Moving a value between devices does
    not change it. *)
Class TensorOps := {
  scalar : Type;
  tensor : Type;
  is_inf : scalar -> bool;
  t_gt : tensor -> tensor -> bool;
  t_abs_max : tensor -> tensor;
  t_norm : scalar -> tensor -> tensor;
  t_stack : list tensor -> tensor;
  t_pow : tensor -> scalar -> tensor;
  s_inv : scalar -> scalar;
  t_clip_coef : scalar -> tensor -> tensor;
  t_lt_one : tensor -> bool;
  t_mul : tensor -> tensor -> tensor;
  all_reduce : reduce_op -> tensor -> tensor
}.

Section Clipping.
Context `{Ops : TensorOps}.

(** The builtin [max] over an iterable: the first of the largest elements,
    a [ValueError] ([None]) when there is none. *)
Definition py_max (l : list tensor) : option tensor :=
  match l with
  | [] => None
  | x :: rest => Some (foldl (fun m y => if t_gt y m then y else m) x rest)
  end.

(** [torch.stack], which refuses an empty list. *)
Definition torch_stack (l : list tensor) : option tensor :=
  match l with
  | [] => None
  | _ :: _ => Some (t_stack l)
  end.

(** [filter(lambda x: x.grad is not None, device_params[self.rank])] *)
Definition with_grad (grads : gmap Param tensor) (rk : nat)
    (device_params : list (list Param)) : option (list Param) :=
  match device_params !! rk with
  | Some ps => Some (filter (fun p => is_Some (grads !! p)) ps)
  | None => None
  end.

(** The chain of the grad-bearing parameters of this rank over all the
    devices. *)
Fixpoint local_grad_params (grads : gmap Param tensor) (rk : nat)
    (pdp : list (nat * list (list Param))) : option (list Param) :=
  match pdp with
  | [] => Some []
  | dp :: rest =>
      match with_grad grads rk dp.2, local_grad_params grads rk rest with
      | Some ps, Some r => Some (ps ++ r)
      | _, _ => None
      end
  end.

(** [p.grad] for every parameter of the list. *)
Fixpoint grads_of (grads : gmap Param tensor) (ps : list Param) : option (list tensor) :=
  match ps with
  | [] => Some []
  | p :: rest =>
      match grads !! p, grads_of grads rest with
      | Some g, Some r => Some (g :: r)
      | _, _ => None
      end
  end.

(** The norm of this shard's gradients combined with the other ranks'. *)
Definition total_norm_of (norm_type : scalar) (gs : list tensor) : M tensor :=
  if is_inf norm_type then
    m <- lift (py_max (t_abs_max <$> gs)) ;;
    log (EvAllReduce ReduceMax) ;;;
    ret (all_reduce ReduceMax m)
  else
    st <- lift (torch_stack (t_norm norm_type <$> gs)) ;;
    let local_norm := t_norm norm_type st in
    log (EvAllReduce ReduceSum) ;;;
    ret (t_pow (all_reduce ReduceSum (t_pow local_norm norm_type)) (s_inv norm_type)).

(** [p.grad.detach().mul_(clip_coef)] on every grad-bearing parameter of
    this rank. *)
Definition scale_grads (clip_coef : tensor) (ps : list Param)
    (grads : gmap Param tensor) : gmap Param tensor :=
  foldl (fun g p => alter (fun t => t_mul t clip_coef) p g) grads ps.

(** [clip_grad_norm]; the gradients are passed in and returned, the total
    norm is the result. *)
Definition clip_grad_norm (max_norm norm_type : scalar)
    (filter_params_fn : option (list Param -> list Param))
    (grads : gmap Param tensor) : M (tensor * gmap Param tensor) :=
  pdp <- per_device_params ;;
  s <- get ;;
  own <- lift (local_grad_params grads (rank s) pdp) ;;
  let local_params := match filter_params_fn with
                      | Some fn => fn own
                      | None => own
                      end in
  gs <- lift (grads_of grads local_params) ;;
  total_norm <- total_norm_of norm_type gs ;;
  let clip_coef := t_clip_coef max_norm total_norm in
  if t_lt_one clip_coef
  then ret (total_norm, scale_grads clip_coef own grads)
  else ret (total_norm, grads).

End Clipping.

(** ** The greedy assignment, as a specification *)

Module GreedySpec.

(** [r] is the rank a parameter must go to: its running weight is minimal,
    and strictly smaller than the weight of every lower rank. *)
Definition is_greedy_choice (sizes : list nat) (r : nat) : Prop :=
  exists w, sizes !! r = Some w /\
    (forall j w', sizes !! j = Some w' -> w <= w') /\
    (forall j w', j < r -> sizes !! j = Some w' -> w < w').

(** Walking the parameters of one group in their order: [rs] are the ranks
    chosen, one per parameter, and the last list the weights at the end. *)
Inductive greedy_walk : list nat -> list Param -> list nat -> list nat -> Prop :=
  | gw_nil sizes : greedy_walk sizes [] [] sizes
  | gw_cons sizes p ps r w rs sizes' :
      is_greedy_choice sizes r ->
      sizes !! r = Some w ->
      greedy_walk (<[r := w + (if requires_grad p then numel p else 1)]> sizes)
                  ps rs sizes' ->
      greedy_walk sizes (p :: ps) (r :: rs) sizes'.

(** The groups one after the other; the running weights carry over. *)
Inductive greedy_groups : list nat -> list group -> list (list nat) -> list nat -> Prop :=
  | gg_nil sizes : greedy_groups sizes [] [] sizes
  | gg_cons sizes g ps rs sizes' gs rss sizes'' :
      group_params g = Some ps ->
      greedy_walk sizes ps rs sizes' ->
      greedy_groups sizes' gs rss sizes'' ->
      greedy_groups sizes (g :: gs) (rs :: rss) sizes''.

(** The parameters of [ps] that went to rank [r], in their original order. *)
Fixpoint assigned_to (r : nat) (ps : list Param) (rs : list nat) : list Param :=
  match ps, rs with
  | p :: ps', r' :: rs' =>
      if decide (r' = r) then p :: assigned_to r ps' rs' else assigned_to r ps' rs'
  | _, _ => []
  end.

(** The groups of rank [r]: every input group, restricted to the parameters
    that went to [r]. *)
Definition shard_of (r : nat) (groups : list group) (rss : list (list nat))
    : list group :=
  zip_with (fun g rs =>
              Partitioner.group_with_params g
                (assigned_to r (default [] (group_params g)) rs))
           groups rss.

End GreedySpec.

(** ** Specification-side helpers for the consolidation *)

Section ConsolidationSpec.
Context `{Collab : Collaborators}.

(** The shard a rank passes to the broadcast it is the source of. *)
Definition sent_shard (s : OSS) : StateDict :=
  if _torch_broadcast_object
  then recursive_copy_to_device (local_state_dict s) cpu
  else local_state_dict s.

(** What rank [rank s] passes to the broadcast whose source is the local
    rank [r]: its shard when it is the source and not the recipient, the
    placeholder otherwise. *)
Definition payload_for (recipient_rank : nat) (s : OSS) (r : nat) : option StateDict :=
  if decide (rank s = recipient_rank) then None
  else if decide (r = rank s) then Some (sent_shard s) else None.

(** The shard the recipient stores for the local rank [r] of global rank
    [g]: its own for itself, the delivered one otherwise. *)
Definition stored_for (net : nat -> option StateDict) (s : OSS) (r g : nat)
    : option StateDict :=
  if decide (r = rank s) then Some (recursive_copy_to_device (local_state_dict s) cpu)
  else match net g with
       | Some sd => Some (recursive_copy_to_device sd cpu)
       | None => None
       end.

End ConsolidationSpec.

(** ** The bucket walk, as a specification *)

Module BucketSpec.

(** Walking the parameters from a running offset: for every parameter, the
    offset at which it is considered and whether it is bucketed, which it is
    if and only if it is trainable and ends strictly below the capacity; only
    a bucketed parameter advances the offset, by its element count. *)
Fixpoint walk (capacity : nat) (params : list Param) (offset : nat)
    : list (nat * bool) :=
  match params with
  | [] => []
  | p :: rest =>
      let fits := requires_grad p && bool_decide (offset + numel p < capacity) in
      (offset, fits) :: walk capacity rest (if fits then offset + numel p else offset)
  end.

(** The offset the walk ends at. *)
Fixpoint walk_end (capacity : nat) (params : list Param) (offset : nat) : nat :=
  match params with
  | [] => offset
  | p :: rest =>
      let fits := requires_grad p && bool_decide (offset + numel p < capacity) in
      walk_end capacity rest (if fits then offset + numel p else offset)
  end.

End BucketSpec.

(** ** Cache invariants *)

(** Two lists of groups with the same parameter lists, whatever their
    hyperparameters. *)
Definition same_params (gs1 gs2 : list group) : Prop :=
  group_params <$> gs1 = group_params <$> gs2.

(** The cached partition, when there is one, is the partition of the
    current parameter lists. *)
Definition partition_fresh (s : OSS) : Prop :=
  _partition_parameters s = [] \/
  exists gs, same_params gs (param_groups s) /\
             Partitioner.partition (world_size s) gs = Some (_partition_parameters s).

(** The cached parameter-to-rank map, when there is one, is derived from
    the cached partition. *)
Definition rank_fresh (s : OSS) : Prop :=
  _param_rank s = ∅ \/
  (_partition_parameters s <> [] /\
   _param_rank s = Index.build_param_rank (_partition_parameters s)).

(** The attributes the bucket setup never assigns. *)
Definition untouched_by_setup (s : OSS) :=
  (param_groups s, defaults s, optim_param_groups s, optim_defaults s,
   optim_state s, in_super_constructor s, world_size s, rank s, pgroup s,
   global_rank s, _all_states s, _device s, bucket_size s, work_handles s,
   trace s).

(** The total element count of the trainable parameters only. *)
Definition trainable_numel (groups : list group) : nat :=
  sum_list (numel <$> filter (fun p => requires_grad p = true) (groups_params groups)).

(** The total element count of all the parameters. *)
Definition total_numel (groups : list group) : nat :=
  sum_list (numel <$> groups_params groups).

(** [flags_extend s s']: the classification list of [s] is still there at
    the front of the one of [s']. *)
Definition flags_extend (s s' : OSS) : Prop :=
  should_bucket_param s `prefix_of` should_bucket_param s'.

(** The shard the rank of global rank [g] passed to the broadcast it was
    the source of, read off its log. *)
Fixpoint sent_by (tr : list event) (g : nat) : option StateDict :=
  match tr with
  | [] => None
  | EvBroadcastObject src (Some sd) :: rest =>
      if decide (src = g) then Some sd else sent_by rest g
  | _ :: rest => sent_by rest g
  end.

(** The parameters of [l] that live on device [dev] and belong to rank [rk],
    in the order of [l]. *)
Definition owned_on (pr : gmap Param nat) (dev rk : nat) (l : list Param) : list Param :=
  filter (fun p => pdevice p = dev /\ pr !! p = Some rk) l.

(** [partition_kept s s']: a partition cached in [s] is still the one
    cached in [s']. *)
Definition partition_kept (s s' : OSS) : Prop :=
  _partition_parameters s <> [] -> _partition_parameters s' = _partition_parameters s.

(** ** Concrete inputs *)

Module Examples.

(** Six trainable tensors of sizes 5, 4, 2, 6, 4 and 3 on device 0, in one
    group with a learning rate. *)
Definition test_params : list Param :=
  imap (fun i n => mkParam i 0 n true) [5; 4; 2; 6; 4; 3].

Definition test_group : group :=
  {[ "params" := VParams test_params; "lr" := VHyper 1%Z ]}.

(** Collaborators for the examples: the wrapped optimizer leaves everything
    in place and returns the loss 7, its [state_dict] numbers the parameters
    by flat position, and a completed broadcast changes nothing locally. *)
Definition example_collab : Collaborators :=
  {| closure := unit;
     loss := Z;
     optim_step := fun _ v => (Some 7%Z, v);
     pack_id := fun i _ => i;
     wait_effect := fun _ m => m;
     _torch_broadcast_object := true |}.

(** Integer stand-ins for the tensor arithmetic. *)
Definition example_ops : TensorOps :=
  {| scalar := Z;
     tensor := Z;
     is_inf := fun p => (p =? 0)%Z;
     t_gt := fun a b => (b <? a)%Z;
     t_abs_max := Z.abs;
     t_norm := fun _ t => Z.abs t;
     t_stack := fun l => foldr Z.add 0%Z l;
     t_pow := fun t _ => t;
     s_inv := fun p => p;
     t_clip_coef := fun m t => (m - t)%Z;
     t_lt_one := fun t => (t <? 1)%Z;
     t_mul := Z.mul;
     all_reduce := fun _ t => t |}.

(** One trainable tensor of two elements, in a world of two ranks. *)
Definition lone_param : Param := mkParam 0 0 2 true.

Definition lone_group : group := {[ "params" := VParams [lone_param] ]}.

Definition lone_data : gmap Param Storage := {[ lone_param := Own float32 [1%Z; 2%Z] ]}.

(** The wrapper as constructed on rank 1, which owns nothing. *)
Definition idle_rank : OSS :=
  (init [lone_group] 16 (blank ∅ ∅ 2 1 None lone_data)).2.

(** The wrapper as constructed on rank 0, which owns the tensor. *)
Definition owner_rank : OSS :=
  (init [lone_group] 16 (blank ∅ ∅ 2 0 None lone_data)).2.

(** Three trainable tensors of 3, 2 and 5 elements owned by rank 0 on device
    0, each with storage of its own, and a freshly allocated bucket of
    capacity 8. *)
Definition owned_params : list Param :=
  [mkParam 0 0 3 true; mkParam 1 0 2 true; mkParam 2 0 5 true].

Definition owned_data : gmap Param Storage :=
  {[ mkParam 0 0 3 true := Own float32 [30; 31; 32]%Z;
     mkParam 1 0 2 true := Own float32 [20; 21]%Z;
     mkParam 2 0 5 true := Own float32 [50; 51; 52; 53; 54]%Z ]}.

Definition fresh_buckets : OSS :=
  set_bucket_size 8 (set_buckets {[ 0 := [zeros 8 float32] ]} (blank ∅ ∅ 1 0 None owned_data)).

(** A trainable tensor of two elements and a frozen one of three. *)
Definition mixed_group : group :=
  {[ "params" := VParams [mkParam 0 0 2 true; mkParam 1 0 3 false] ]}.

Definition mixed_data : gmap Param Storage :=
  {[ mkParam 0 0 2 true := Own float32 [1; 2]%Z;
     mkParam 1 0 3 false := Own float32 [3; 4; 5]%Z ]}.

(** The three tensors of [owned_params] in one group. *)
Definition owned_group : group := {[ "params" := VParams owned_params ]}.

(** The wrapper over [owned_group] alone in the world, with a maximum
    buffer size of 8. *)
Definition built_once : option unit * OSS :=
  init [owned_group] 8 (blank ∅ ∅ 1 0 None owned_data).

(** Five trainable tensors of 4, 5, 2, 6 and 4 elements in one group, over
    three ranks: the wrapper the repository's [run_test_add_param_group]
    builds. Every tensor is filled with its own number. *)
Definition suite_params : list Param :=
  imap (fun i n => mkParam i 0 n true) [4; 5; 2; 6; 4].

Definition suite_group : group := {[ "params" := VParams suite_params ]}.

(** The group that test then adds: one tensor of 3 elements made by
    [torch.rand(3, 1)], which does not require a gradient. *)
Definition frozen_added : Param := mkParam 5 0 3 false.

Definition frozen_group : group := {[ "params" := VParams [frozen_added] ]}.

(** A group of our own to add instead: one trainable tensor of 3
    elements. *)
Definition added_param : Param := mkParam 5 0 3 true.

Definition added_group : group := {[ "params" := VParams [added_param] ]}.

Definition suite_data : gmap Param Storage :=
  list_to_map ((fun p => (p, Own float32 (replicate (numel p) (Z.of_nat (pid p)))))
                 <$> (suite_params ++ [added_param; frozen_added])).

(** The wrapper of that test on rank [rk]. The test keeps the default
    maximum buffer size of 2^17 elements; 100 stands for it here, both
    being above the 21 elements of the model, which are then the capacity.
    The learning rate the test passes is left out: neither the partition
    nor the bucket setup reads a hyper-parameter. *)
Definition suite_rank (rk : nat) : option unit * OSS :=
  init [suite_group] 100 (blank ∅ ∅ 3 rk None suite_data).

(** The wrapper built over both groups at once. *)
Definition suite_whole (rk : nat) : option unit * OSS :=
  init [suite_group; frozen_group] 100 (blank ∅ ∅ 3 rk None suite_data).

(** One rank, two trainable tensors of 3 and 2 elements in one group, and a
    trainable tensor of 1 element to add in a group of its own. *)
Definition wide : Param := mkParam 0 0 3 true.

Definition narrow : Param := mkParam 1 0 2 true.

Definition late : Param := mkParam 2 0 1 true.

Definition duo_group : group := {[ "params" := VParams [wide; narrow] ]}.

Definition late_group : group := {[ "params" := VParams [late] ]}.

Definition trio_data : gmap Param Storage :=
  {[ wide := Own float32 [30; 31; 32]%Z;
     narrow := Own float32 [20; 21]%Z;
     late := Own float32 [10]%Z ]}.

Definition duo_built : option unit * OSS :=
  init [duo_group] 100 (blank ∅ ∅ 1 0 None trio_data).

(** A save and reload across the ranks. Every rank constructs the wrapper
    over [groups]; after training the wrapped optimizer of rank [rk] holds
    the state [trained_state rk]; [consolidate_state_dict()] runs on all
    ranks, the recipient receiving what each other rank sent; [state_dict()]
    is taken on the recipient; the result is loaded into a freshly
    constructed wrapper on rank [rk]. *)
Section RoundTrip.
Context (C : Collaborators) (groups : list group) (data : gmap Param Storage)
        (ws : nat) (trained_state : nat -> list (Param * blob)) (recipient : nat).

Definition rt_fresh (rk : nat) : option unit * OSS :=
  init groups 16 (blank ∅ ∅ ws rk None data).

Definition rt_trained (rk : nat) : OSS :=
  set_optim_state (trained_state rk) (rt_fresh rk).2.

Definition rt_net (g : nat) : option StateDict :=
  sent_by (trace (consolidate_state_dict (Collab := C) (fun _ => None) recipient
                    (rt_trained g)).2) g.

Definition rt_recipient : option unit * OSS :=
  consolidate_state_dict (Collab := C) rt_net recipient (rt_trained recipient).

Definition rt_saved : option StateDict :=
  (state_dict (Collab := C) rt_recipient.2).1.

Definition rt_loaded (rk : nat) : option (option unit * OSS) :=
  match rt_saved with
  | Some sd => Some (load_state_dict sd (rt_fresh rk).2)
  | None => None
  end.

End RoundTrip.

(** Two ranks, two trainable tensors of one element in one group: rank 0
    owns the first, rank 1 the second; the state of the tensor number [i]
    has the value [10 + i]. *)
Definition tensor1 (i : nat) : Param := mkParam i 0 1 true.

Definition state1 (i : nat) : Param * blob := (tensor1 i, mkBlob 0 (10 + Z.of_nat i)).

Definition pair_group : group :=
  {[ "params" := VParams [tensor1 0; tensor1 1]; "lr" := VHyper 1%Z ]}.

Definition quad_data : gmap Param Storage :=
  list_to_map ((fun i => (tensor1 i, Own float32 [Z.of_nat i])) <$> [0; 1; 2; 3]).

Definition pair_state (rk : nat) : list (Param * blob) := [state1 rk].

(** Two ranks, two groups of two such tensors: rank 0 owns the tensors 0
    and 2, rank 1 the tensors 1 and 3. *)
Definition front_group : group := {[ "params" := VParams [tensor1 0; tensor1 1] ]}.

Definition back_group : group := {[ "params" := VParams [tensor1 2; tensor1 3] ]}.

Definition quad_state (rk : nat) : list (Param * blob) := [state1 rk; state1 (rk + 2)].

(** One rank, a frozen tensor followed by a trainable one; only the
    trainable one has optimizer state. *)
Definition frozen0 : Param := mkParam 0 0 1 false.

Definition thaw_group : group := {[ "params" := VParams [frozen0; tensor1 1] ]}.

Definition thaw_data : gmap Param Storage :=
  {[ frozen0 := Own float32 [0%Z]; tensor1 1 := Own float32 [1%Z] ]}.

Definition thaw_state (rk : nat) : list (Param * blob) := [state1 1].

(** A wrapped optimizer whose [state_dict] names the tensors by an identity
    number instead of their position. *)
Definition identity_collab : Collaborators :=
  {| closure := unit;
     loss := Z;
     optim_step := fun _ v => (Some 7%Z, v);
     pack_id := fun _ p => 1000 + pid p;
     wait_effect := fun _ m => m;
     _torch_broadcast_object := true |}.

End Examples.

(** ** Specification-side helpers for the broadcast queue *)

(** A handle queued by [_broadcast_params]: no callback. *)
Definition plain (h : Handle) : Workhandle := mkWorkhandle h None.

(** What draining one work handle logs: the wait, then the callback when
    there is one. *)
Definition drain_events (w : Workhandle) : list event :=
  EvWait (handle w) ::
  match callback w with
  | Some c => [EvCallback c]
  | None => []
  end.

(** ** Frame conditions *)

(** [preserves R m]: whatever [m] does, returning or raising, the state it
    leaves is [R]-related to the state it started from. *)
Definition preserves {A : Type} (R : relation OSS) (m : M A) : Prop :=
  forall s, R s (m s).2.

(** [keeps f]: the attribute [f] has not changed. *)
Definition keeps {B : Type} (f : OSS -> B) : relation OSS :=
  fun s s' => f s' = f s.

(** [issued s s']: between [s] and [s'] broadcasts were issued and queued,
    nothing was waited for, and the groups were left alone. *)
Definition issued (s s' : OSS) : Prop :=
  exists hs : list Handle,
    trace s' = trace s ++ (EvBroadcast <$> hs) /\
    work_handles s' = work_handles s ++ (plain <$> hs) /\
    param_groups s' = param_groups s /\
    optim_param_groups s' = optim_param_groups s.

(** ** One step, as a specification *)

Module StepSpec.

(** The sends of one source rank, of global rank [src]: one for every
    parameter of the rank that is not bucketed, in the order of the list,
    then one for the bucket of the rank. [flags] is the classification,
    from the first parameter of the list on. *)
Definition rank_sends (src dev rk : nat) (params : list Param) (flags : list bool)
    : list Handle :=
  omap (fun pf : Param * bool =>
          if pf.2 then None else Some (mkHandle (TParam pf.1) src))
       (zip params flags)
  ++ [mkHandle (TBucket dev rk) src].

(** The sends of one device, rank after rank from the rank [rk]; the
    classification lists the parameters of a rank behind those of the rank
    before it. *)
Fixpoint device_sends (src_of : nat -> nat) (dev rk : nat) (lists : list (list Param))
    (flags : list bool) : list Handle :=
  match lists with
  | [] => []
  | params :: rest =>
      rank_sends (src_of rk) dev rk params flags
      ++ device_sends src_of dev (S rk) rest (drop (length params) flags)
  end.

(** The sends of a whole publication, device after device. *)
Fixpoint publish (src_of : nat -> nat) (index : list (nat * list (list Param)))
    (flags : list bool) : list Handle :=
  match index with
  | [] => []
  | dp :: rest =>
      device_sends src_of dp.1 0 dp.2 flags
      ++ publish src_of rest (drop (length (mjoin dp.2)) flags)
  end.

(** [local'] is [local] after the hyperparameters were copied in from
    [public]: every key of [local] but ["params"] that [public] has too
    holds the value of [public], and nothing else has changed. *)
Definition keys_pulled (public local local' : group) : Prop :=
  forall k, local' !! k =
    if decide (k = "params") then local !! k
    else match local !! k, public !! k with
         | Some _, Some v => Some v
         | held, _ => held
         end.

(** [public'] is [public] after the keys of [local] were copied out to it:
    every key of [local] but ["params"] is in [public'] with the value of
    [local], and nothing else has changed. *)
Definition keys_pushed (local public public' : group) : Prop :=
  forall k, public' !! k =
    if decide (k = "params") then public !! k
    else match local !! k with
         | Some v => Some v
         | None => public !! k
         end.

(** The same, group by group; a group without a partner stays as it is. *)
Definition groups_pulled (publics locals locals' : list group) : Prop :=
  length locals' = length locals /\
  forall i l l', locals !! i = Some l -> locals' !! i = Some l' ->
    match publics !! i with
    | Some g => keys_pulled g l l'
    | None => l' = l
    end.

Definition groups_pushed (locals publics publics' : list group) : Prop :=
  length publics' = length publics /\
  forall i g g', publics !! i = Some g -> publics' !! i = Some g' ->
    match locals !! i with
    | Some l => keys_pushed l g g'
    | None => g' = g
    end.

(** What a publication needs in order to go through: a cached index, for
    every device of the index a bucket per rank, a global rank [src_of r]
    for every rank, and a flag for every parameter of the index. *)
Definition ready_to_publish (pg : option (list nat)) (src_of : nat -> nat)
    (index : list (nat * list (list Param))) (bks : gmap nat (list Buffer))
    (flags : list bool) : Prop :=
  index <> [] /\
  Forall (fun dp : nat * list (list Param) =>
            (exists bs, bks !! dp.1 = Some bs /\ length dp.2 <= length bs) /\
            Forall (fun r => get_global_rank pg r = Some (src_of r))
                   (seq 0 (length dp.2)))
         index /\
  length (mjoin (mjoin index.*2)) <= length flags.

End StepSpec.

(** The tensors once the handles of [q] have been waited for, oldest
    first. *)
Definition drained `{Collab : Collaborators} (q : list Workhandle)
    (m : gmap Param Storage * gmap nat (list Buffer))
    : gmap Param Storage * gmap nat (list Buffer) :=
  foldl (fun m w => wait_effect (handle w) m) m q.

(** The state once the broadcasts [hs] have been issued and queued. *)
Definition queued (hs : list Handle) (s : OSS) : OSS :=
  set_work_handles (work_handles s ++ (plain <$> hs))
    (set_trace (trace s ++ (EvBroadcast <$> hs)) s).

(** The state once the queue [q] has been drained. *)
Definition after_drain `{Collab : Collaborators} (q : list Workhandle) (s : OSS) : OSS :=
  let m := drained q (pdata s, buckets s) in
  set_buckets m.2
    (set_pdata m.1
       (set_trace (trace s ++ mjoin (drain_events <$> q))
          (set_work_handles (match q with [] => work_handles s | _ :: _ => [] end) s))).

(** * Properties *)

(** ** Partitioner *)

Section PartitionerFacts.
Import Partitioner GreedySpec.

Lemma foldl_min_le (l : list nat) (x : nat) :
  foldl Nat.min x l <= x /\ Forall (fun y => foldl Nat.min x l <= y) l.
Proof.
  revert x. induction l as [|y l IH]; intros x; simpl.
  - split; [lia | constructor].
  - destruct (IH (x `min` y)) as [H1 H2]. split; [lia|].
    constructor; [lia | done].
Qed.

Lemma foldl_min_in (l : list nat) (x : nat) :
  foldl Nat.min x l ∈ x :: l.
Proof.
  revert x. induction l as [|y l IH]; intros x; simpl.
  - set_solver.
  - specialize (IH (x `min` y)).
    apply elem_of_cons in IH as [IH | IH].
    + rewrite IH. destruct (Nat.min_spec x y) as [[_ ->] | [_ ->]]; set_solver.
    + set_solver.
Qed.

Lemma py_index_spec (x : nat) (l : list nat) :
  x ∈ l ->
  exists r, py_index x l = Some r /\ l !! r = Some x /\
            forall j y, j < r -> l !! j = Some y -> y <> x.
Proof.
  induction l as [|y l IH]; intros Hin; [by apply elem_of_nil in Hin|].
  simpl. destruct (decide (y = x)) as [-> | Hne].
  - exists 0. split; [done|]. split; [done|]. intros; lia.
  - apply elem_of_cons in Hin as [-> | Hin]; [done|].
    destruct (IH Hin) as (r & -> & Hr & Hlt).
    exists (S r). split; [done|]. split; [done|].
    intros [|j] z Hj Hz; simpl in Hz.
    + by inversion Hz; subst.
    + apply (Hlt j); [lia | done].
Qed.

Lemma smallest_rank_spec (sizes : list nat) :
  sizes <> [] ->
  exists r, smallest_rank sizes = Some r /\ is_greedy_choice sizes r.
Proof.
  destruct sizes as [|x l]; [done | intros _].
  unfold smallest_rank. simpl.
  destruct (foldl_min_le l x) as [Hx Hl].
  destruct (py_index_spec (foldl Nat.min x l) (x :: l) (foldl_min_in l x))
    as (r & Hr & Hlook & Hfirst).
  exists r. split; [done|].
  exists (foldl Nat.min x l). split; [done|].
  assert (Hall : forall j w', (x :: l) !! j = Some w' -> foldl Nat.min x l <= w').
  { intros [|j] w' Hj; simpl in Hj.
    - by inversion Hj; subst.
    - rewrite Forall_lookup in Hl. by apply (Hl j). }
  split; [done|].
  intros j w' Hj Hw'.
  specialize (Hall j w' Hw'). specialize (Hfirst j w' Hj Hw'). lia.
Qed.


Lemma greedy_choice_lt (sizes : list nat) (r : nat) :
  is_greedy_choice sizes r -> r < length sizes.
Proof. intros (w & H & _). by eapply lookup_lt_Some. Qed.

Lemma alter_weight (sizes : list nat) (r w k : nat) :
  sizes !! r = Some w -> alter (fun s => s + k) r sizes = <[r := w + k]> sizes.
Proof.
  intros H. apply list_eq. intros i.
  destruct (decide (i = r)) as [-> | Hne].
  - rewrite list_lookup_alter_eq, H. simpl.
    by rewrite list_lookup_insert_eq by (by eapply lookup_lt_Some).
  - by rewrite list_lookup_alter_ne, list_lookup_insert_ne.
Qed.



Lemma greedy_walk_length sizes ps rs sizes' :
  greedy_walk sizes ps rs sizes' ->
  length rs = length ps /\ length sizes' = length sizes /\
  Forall (fun r => r < length sizes) rs.
Proof.
  induction 1 as [sizes | sizes p ps r w rs sizes' Hc Hw _ IH]; [done|].
  destruct IH as (Hl & Hs & Hall). rewrite length_insert in Hs, Hall.
  simpl. repeat split; [lia | done |].
  constructor; [by eapply lookup_lt_Some | done].
Qed.

(** The inner loop, in closed form. *)
Lemma assign_params_spec (ps : list Param) (sizes : list nat)
    (param_lists : list (list Param)) :
  sizes <> [] ->
  exists rs sizes',
    greedy_walk sizes ps rs sizes' /\
    assign_params ps sizes param_lists =
      Some (sizes', imap (fun r l => l ++ assigned_to r ps rs) param_lists).
Proof.
  revert sizes param_lists.
  induction ps as [|p ps IH]; intros sizes pls Hne.
  - exists [], sizes. split; [constructor|]. simpl. f_equal. f_equal.
    induction pls as [|l pls IHl] using rev_ind; [done|].
    rewrite imap_app. simpl. rewrite <- IHl at 1. by rewrite app_nil_r.
  - destruct (smallest_rank_spec sizes Hne) as (r & Hr & Hc).
    pose proof Hc as (w & Hw & _).
    assert (Hne' : alter (fun s => s + weight p) r sizes <> []).
    { intros Heq. apply (f_equal length) in Heq.
      rewrite length_alter in Heq. destruct sizes; [done | simpl in Heq; lia]. }
    destruct (IH _ (alter (fun l => l ++ [p]) r pls) Hne') as (rs & sizes' & Hwalk & Heq).
    exists (r :: rs), sizes'. split.
    + econstructor; [done | done |].
      rewrite <- (alter_weight _ _ _ _ Hw). exact Hwalk.
    + simpl. rewrite Hr. simpl. rewrite Heq. f_equal. f_equal.
      apply list_eq. intros i.
      rewrite !list_lookup_imap.
      destruct (decide (i = r)) as [-> | Hir].
      * rewrite list_lookup_alter_eq. destruct (pls !! r); simpl; [|done].
        rewrite decide_True by done. by rewrite <- app_assoc.
      * rewrite list_lookup_alter_ne by done. destruct (pls !! i); simpl; [|done].
        by rewrite decide_False by done.
Qed.


Lemma shard_of_cons r g gs rs rss :
  shard_of r (g :: gs) (rs :: rss) =
    group_with_params g (assigned_to r (default [] (group_params g)) rs)
      :: shard_of r gs rss.
Proof. done. Qed.

(** The outer loop, in closed form. *)
Lemma partition_groups_spec (ws : nat) (groups : list group) (sizes : list nat)
    (parts : list (list group)) :
  sizes <> [] ->
  Forall (fun g => is_Some (group_params g)) groups ->
  length parts = ws ->
  exists rss sizes',
    greedy_groups sizes groups rss sizes' /\
    partition_groups ws groups sizes parts =
      Some (imap (fun r part => part ++ shard_of r groups rss) parts).
Proof.
  intros Hne Hall. revert sizes parts Hne.
  induction Hall as [|g gs [ps Hps] _ IH]; intros sizes parts Hne Hlen.
  - exists [], sizes. split; [constructor|]. simpl. f_equal.
    apply list_eq. intros i. rewrite list_lookup_imap.
    destruct (parts !! i); simpl; [|done]. by rewrite app_nil_r.
  - destruct (assign_params_spec ps sizes (replicate ws []) Hne)
      as (rs & sizes1 & Hwalk & Hassign).
    destruct (greedy_walk_length _ _ _ _ Hwalk) as (_ & Hlen1 & _).
    assert (Hne1 : sizes1 <> []).
    { intros ->. destruct sizes; [done | simpl in Hlen1; lia]. }
    set (parts1 := zip_with (fun part params => part ++ [group_with_params g params])
                     parts (imap (fun r l => l ++ assigned_to r ps rs) (replicate ws []))).
    assert (Hlen_parts1 : length parts1 = ws).
    { unfold parts1. rewrite length_zip_with, length_imap, length_replicate. lia. }
    destruct (IH sizes1 parts1 Hne1 Hlen_parts1) as (rss & sizes2 & Hgroups & Hrest).
    exists (rs :: rss), sizes2. split; [by econstructor|].
    simpl. rewrite Hps. simpl. rewrite Hassign. simpl.
    fold parts1. rewrite Hrest. f_equal.
    apply list_eq. intros i. rewrite !list_lookup_imap.
    unfold parts1. rewrite lookup_zip_with, list_lookup_imap.
    destruct (parts !! i) as [part|] eqn:Hi; simpl; [|done].
    assert (Hi' : i < ws) by (rewrite <- Hlen; by eapply lookup_lt_Some).
    rewrite lookup_replicate_2 by done. simpl.
    by rewrite <- app_assoc.
Qed.

Lemma partition_spec (ws : nat) (groups : list group) :
  1 <= ws ->
  Forall (fun g => is_Some (group_params g)) groups ->
  exists rss sizes',
    greedy_groups (replicate ws 0) groups rss sizes' /\
    partition ws groups = Some ((fun r => shard_of r groups rss) <$> seq 0 ws).
Proof.
  intros Hws Hall.
  assert (Hne : replicate ws 0 <> []) by (destruct ws; [lia | done]).
  destruct (partition_groups_spec ws groups (replicate ws 0) (replicate ws [])
              Hne Hall (length_replicate _ _)) as (rss & sizes' & Hg & Heq).
  exists rss, sizes'. split; [done|].
  unfold partition. rewrite Heq. f_equal.
  apply list_eq. intros i. rewrite list_lookup_imap, list_lookup_fmap.
  destruct (decide (i < ws)) as [Hi | Hi].
  - rewrite lookup_replicate_2 by done. by rewrite lookup_seq_lt by done.
  - rewrite (proj1 (lookup_replicate_None _ _ _)) by lia.
    by rewrite lookup_seq_ge by lia.
Qed.

Lemma group_params_with (g : group) (ps : list Param) :
  group_params (group_with_params g ps) = Some ps.
Proof. unfold group_params, group_with_params. by rewrite lookup_insert_eq. Qed.

Lemma groups_params_cons (g : group) (gs : list group) :
  groups_params (g :: gs) = default [] (group_params g) ++ groups_params gs.
Proof. done. Qed.

(** Moving one parameter to the front of the list of its rank. *)
Lemma mjoin_fmap_cons {A B : Type} (f : A -> list B) (x : A) (l : list A) :
  mjoin (f <$> x :: l) = f x ++ mjoin (f <$> l).
Proof. done. Qed.

Lemma mjoin_insert_perm (f f' : nat -> list Param) (p : Param) (r0 : nat)
    (l : list nat) :
  NoDup l -> r0 ∈ l ->
  f' r0 = p :: f r0 ->
  (forall r, r <> r0 -> f' r = f r) ->
  mjoin (f' <$> l) ≡ₚ p :: mjoin (f <$> l).
Proof.
  intros Hnd Hin Hr0 Hother.
  induction l as [|r l IH]; [by apply elem_of_nil in Hin|].
  apply NoDup_cons in Hnd as [Hnotin Hnd]. rewrite !mjoin_fmap_cons.
  destruct (decide (r = r0)) as [-> | Hne].
  - rewrite Hr0. simpl. constructor.
    apply Permutation_app_head.
    assert (Heq : f' <$> l = f <$> l).
    { apply list_fmap_ext. intros i x Hx. apply Hother.
      intros ->. apply Hnotin. by eapply list_elem_of_lookup_2. }
    by rewrite Heq.
  - apply elem_of_cons in Hin as [-> | Hin]; [done|].
    rewrite (Hother r Hne), (IH Hnd Hin).
    by rewrite Permutation_middle.
Qed.

Lemma assigned_to_perm (ws : nat) (ps : list Param) (rs : list nat) :
  length rs = length ps ->
  Forall (fun r => r < ws) rs ->
  mjoin ((fun r => assigned_to r ps rs) <$> seq 0 ws) ≡ₚ ps.
Proof.
  revert rs. induction ps as [|p ps IH]; intros rs Hlen Hall.
  - induction (seq 0 ws) as [|r l IHl]; [done|]. rewrite mjoin_fmap_cons, IHl.
    by destruct rs.
  - destruct rs as [|r0 rs]; [done|].
    apply Forall_cons in Hall as [Hr0 Hall].
    rewrite (mjoin_insert_perm (fun r => assigned_to r ps rs) _ p r0).
    + constructor. apply IH; [by simplify_eq/= | done].
    + apply NoDup_seq.
    + apply elem_of_seq. lia.
    + simpl. by rewrite decide_True.
    + intros r Hne. simpl. by rewrite decide_False.
Qed.

Lemma mjoin_app_perm {A : Type} (f h : nat -> list A) (l : list nat) :
  mjoin ((fun r => f r ++ h r) <$> l) ≡ₚ mjoin (f <$> l) ++ mjoin (h <$> l).
Proof.
  induction l as [|r l IH]; [done|]. rewrite !mjoin_fmap_cons, IH.
  rewrite <- !app_assoc. apply Permutation_app_head.
  rewrite !app_assoc. apply Permutation_app_tail. apply Permutation_app_comm.
Qed.

Lemma shards_perm (ws : nat) (sizes : list nat) (groups : list group)
    (rss : list (list nat)) (sizes' : list nat) :
  greedy_groups sizes groups rss sizes' ->
  length sizes = ws ->
  mjoin ((fun r => groups_params (shard_of r groups rss)) <$> seq 0 ws)
    ≡ₚ groups_params groups.
Proof.
  induction 1 as [sizes | sizes g ps rs sizes1 gs rss sizes2 Hps Hwalk _ IH];
    intros Hlen.
  - induction (seq 0 ws) as [|r l IHl]; [done|]. by rewrite mjoin_fmap_cons, IHl.
  - destruct (greedy_walk_length _ _ _ _ Hwalk) as (Hl & Hs & Hall).
    rewrite Hlen in Hall.
    assert (Heq : (fun r => groups_params (shard_of r (g :: gs) (rs :: rss))) <$> seq 0 ws
                  = (fun r => assigned_to r ps rs ++ groups_params (shard_of r gs rss))
                      <$> seq 0 ws).
    { apply list_fmap_ext. intros i r _.
      rewrite shard_of_cons, groups_params_cons, group_params_with.
      by rewrite Hps. }
    rewrite Heq, mjoin_app_perm, (assigned_to_perm ws ps rs Hl Hall).
    rewrite IH by lia. by rewrite groups_params_cons, Hps.
Qed.

Lemma mjoin_NoDup_unique {A : Type} (ls : list (list A)) (i j : nat)
    (a b : list A) (x : A) :
  NoDup (mjoin ls) ->
  ls !! i = Some a -> ls !! j = Some b -> x ∈ a -> x ∈ b -> i = j.
Proof.
  revert i j. induction ls as [|l ls IH]; intros i j Hnd Hi Hj Ha Hb; [done|].
  simpl in Hnd. apply NoDup_app in Hnd as (_ & Hdisj & Hnd).
  assert (Hin : forall k c, ls !! k = Some c -> x ∈ c -> x ∈ mjoin ls).
  { intros k c Hk Hc. apply list_elem_of_join. exists c. split; [done|].
    by eapply list_elem_of_lookup_2. }
  destruct i as [|i], j as [|j]; simpl in Hi, Hj; simplify_eq; [done| | |].
  - exfalso. eapply Hdisj; [exact Ha | by eapply Hin].
  - exfalso. eapply Hdisj; [exact Hb | by eapply Hin].
  - f_equal. by eapply IH.
Qed.

End PartitionerFacts.

Section PartitionerClaims.
Import Partitioner GreedySpec.

(** C2: for every list of param groups and every world size of at least 1,
    the partition is computed, has one entry per rank, and the parameters
    of all the ranks together are the input parameters, each exactly as
    often as in the input; when the input has no repeated parameter, no
    parameter is in the partition of two ranks. *)
Theorem C2_partition_exactly_once (groups : list group) (ws : nat) :
  1 <= ws ->
  Forall (fun g => is_Some (group_params g)) groups ->
  exists parts,
    partition ws groups = Some parts /\
    length parts = ws /\
    mjoin (groups_params <$> parts) ≡ₚ groups_params groups /\
    (NoDup (groups_params groups) ->
     forall r1 r2 part1 part2 p,
       parts !! r1 = Some part1 -> parts !! r2 = Some part2 ->
       p ∈ groups_params part1 -> p ∈ groups_params part2 -> r1 = r2).
Proof.
  intros Hws Hall.
  destruct (partition_spec ws groups Hws Hall) as (rss & sizes' & Hg & Heq).
  exists ((fun r => shard_of r groups rss) <$> seq 0 ws).
  assert (Hperm : mjoin (groups_params <$> ((fun r => shard_of r groups rss) <$> seq 0 ws))
                  ≡ₚ groups_params groups).
  { rewrite <- list_fmap_compose.
    apply (shards_perm ws _ _ _ _ Hg). apply length_replicate. }
  split; [done|]. split; [by rewrite length_fmap, length_seq|].
  split; [done|].
  intros Hnd r1 r2 part1 part2 p H1 H2 Hp1 Hp2.
  rewrite <- Hperm in Hnd.
  apply (mjoin_NoDup_unique _ r1 r2 (groups_params part1) (groups_params part2)
           p Hnd); [| |done|done].
  - rewrite list_lookup_fmap. simpl in H1. by rewrite H1.
  - rewrite list_lookup_fmap. simpl in H2. by rewrite H2.
Qed.

Lemma C2_partition_exactly_once_witness :
  exists parts,
    partition 3 [Examples.test_group] = Some parts /\
    length parts = 3 /\
    mjoin (groups_params <$> parts) ≡ₚ groups_params [Examples.test_group] /\
    (NoDup (groups_params [Examples.test_group]) ->
     forall r1 r2 part1 part2 p,
       parts !! r1 = Some part1 -> parts !! r2 = Some part2 ->
       p ∈ groups_params part1 -> p ∈ groups_params part2 -> r1 = r2).
Proof.
  apply (C2_partition_exactly_once [Examples.test_group] 3); [lia|].
  repeat constructor. by eexists.
Defined.



(** The sizes 5, 4, 2, 6, 4, 3 over three ranks: two parameters per rank,
    eight elements each. *)
Example partition_test_sizes :
  (map (fun part => numel <$> groups_params part))
    <$> partition 3 [Examples.test_group]
  = Some [[5; 3]; [4; 4]; [2; 6]].
Proof. by vm_compute. Qed.

End PartitionerClaims.

(** ** Reasoning about methods *)

Section Monad.

Lemma bind_Some {A B : Type} (m : M A) (k : A -> M B) (s s' : OSS) (b : B) :
  bind m k s = (Some b, s') ->
  exists a s1, m s = (Some a, s1) /\ k a s1 = (Some b, s').
Proof.
  unfold bind. destruct (m s) as [[a|] s1]; [|done].
  intros H. by exists a, s1.
Qed.

Lemma bind_run {A B : Type} (m : M A) (k : A -> M B) (s s1 : OSS) (a : A) :
  m s = (Some a, s1) -> bind m k s = k a s1.
Proof. unfold bind. by intros ->. Qed.

Lemma bind_raise {A B : Type} (m : M A) (k : A -> M B) (s s1 : OSS) :
  m s = (None, s1) -> bind m k s = (None, s1).
Proof. unfold bind. by intros ->. Qed.

Context (R : relation OSS) `{!PreOrder R}.

Lemma preserves_ret {A : Type} (a : A) : preserves R (ret a).
Proof. intros s. simpl. reflexivity. Qed.

Lemma preserves_raise {A : Type} : preserves R (@raise A).
Proof. intros s. simpl. reflexivity. Qed.

Lemma preserves_get : preserves R get.
Proof. intros s. simpl. reflexivity. Qed.

Lemma preserves_lift {A : Type} (o : option A) : preserves R (lift o).
Proof. destruct o; [apply preserves_ret | apply preserves_raise]. Qed.

Lemma preserves_modify (f : OSS -> OSS) :
  (forall s, R s (f s)) -> preserves R (modify f).
Proof. intros H s. apply H. Qed.

Lemma preserves_bind {A B : Type} (m : M A) (k : A -> M B) :
  preserves R m -> (forall a, preserves R (k a)) -> preserves R (bind m k).
Proof.
  intros Hm Hk s. unfold bind. specialize (Hm s).
  destruct (m s) as [[a|] s1]; simpl in *; [|done].
  etrans; [exact Hm | apply Hk].
Qed.

Lemma preserves_for_each {A : Type} (l : list A) (body : A -> M unit) :
  (forall x, preserves R (body x)) -> preserves R (for_each l body).
Proof.
  intros H. induction l as [|x l IH]; simpl.
  - apply preserves_ret.
  - apply preserves_bind; [apply H | by intros _].
Qed.

Lemma preserves_for_fold {A B : Type} (l : list A) (acc : B) (body : A -> B -> M B) :
  (forall x b, preserves R (body x b)) -> preserves R (for_fold l acc body).
Proof.
  intros H. revert acc. induction l as [|x l IH]; intros acc; simpl.
  - apply preserves_ret.
  - apply preserves_bind; [apply H | intros b; apply IH].
Qed.

End Monad.

#[local] Instance keeps_preorder {B : Type} (f : OSS -> B) : PreOrder (keeps f).
Proof.
  split.
  - by intros s.
  - intros s1 s2 s3 H1 H2. unfold keeps in *. congruence.
Qed.

(** Breaks a method down to the attribute assignments it is made of. *)
Ltac pres_step :=
  lazymatch goal with
  | |- preserves ?R (ret _) => apply (preserves_ret R)
  | |- preserves ?R get => apply (preserves_get R)
  | |- preserves ?R raise => apply (preserves_raise R)
  | |- preserves ?R (lift _) => apply (preserves_lift R)
  | |- preserves ?R (for_each _ _) => apply (preserves_for_each R); intros
  | |- preserves ?R (for_fold _ _ _) => apply (preserves_for_fold R); intros
  | |- preserves ?R (bind _ _) => apply (preserves_bind R); [| intros]
  | |- preserves ?R (modify _) => apply (preserves_modify R); intros
  | |- preserves _ (log _) => unfold log
  | |- preserves _ (match ?c with _ => _ end) => destruct c
  end.

Ltac pres := repeat pres_step.

(** ** The step *)

Section StepFacts.
Context `{Collab : Collaborators}.

#[local] Instance issued_preorder : PreOrder issued.
Proof.
  split.
  - intros s. exists []. simpl. by rewrite !app_nil_r.
  - intros s1 s2 s3 (h1 & Ht1 & Hw1 & Hg1 & Ho1) (h2 & Ht2 & Hw2 & Hg2 & Ho2).
    exists (h1 ++ h2). rewrite Ht2, Hw2, Ht1, Hw1, Hg2, Ho2, !fmap_app, !app_assoc.
    done.
Qed.

Lemma issued_same (s s' : OSS) :
  trace s' = trace s -> work_handles s' = work_handles s ->
  param_groups s' = param_groups s ->
  optim_param_groups s' = optim_param_groups s ->
  issued s s'.
Proof. intros. exists []. simpl. by rewrite !app_nil_r. Qed.

Ltac caches_only := pres; apply issued_same; reflexivity.

Lemma partition_parameters_issued : preserves issued partition_parameters.
Proof. unfold partition_parameters. caches_only. Qed.

Lemma param_to_rank_issued : preserves issued param_to_rank.
Proof.
  unfold param_to_rank. pres; try (apply issued_same; reflexivity).
  apply partition_parameters_issued.
Qed.

Lemma per_device_params_issued : preserves issued per_device_params.
Proof.
  unfold per_device_params. pres; try (apply issued_same; reflexivity).
  apply param_to_rank_issued.
Qed.

Lemma issue_broadcast_issued (t : tensor_ref) (src : nat) :
  preserves issued (issue_broadcast t src).
Proof. intros s. by exists [mkHandle t src]. Qed.

Lemma broadcast_param_issued g p i : preserves issued (broadcast_param g p i).
Proof.
  unfold broadcast_param.
  repeat first [apply issue_broadcast_issued | pres_step].
Qed.

Lemma broadcast_rank_issued d rp i : preserves issued (broadcast_rank d rp i).
Proof.
  unfold broadcast_rank.
  repeat first [apply issue_broadcast_issued | apply broadcast_param_issued | pres_step].
Qed.

Lemma broadcast_device_issued dp i : preserves issued (broadcast_device dp i).
Proof.
  unfold broadcast_device.
  repeat first [apply broadcast_rank_issued | pres_step].
Qed.

(** The draining loop never raises; it empties the deque and logs, for
    every handle from the oldest on, the wait and then the callback. *)
Lemma consume_spec (q : list Workhandle) (s : OSS) :
  exists s',
    consume q s = (Some tt, s') /\
    work_handles s' = match q with [] => work_handles s | _ :: _ => [] end /\
    trace s' = trace s ++ mjoin (drain_events <$> q) /\
    param_groups s' = param_groups s /\
    optim_param_groups s' = optim_param_groups s.
Proof.
  revert s. induction q as [|w q IH]; intros s.
  - exists s. simpl. by rewrite app_nil_r.
  - set (m := wait_effect (handle w) (pdata s, buckets s)).
    set (s1 := set_buckets m.2 (set_pdata m.1
                 (set_trace (trace s ++ [EvWait (handle w)]) (set_work_handles q s)))).
    set (s2 := match callback w with
               | Some c => set_trace (trace s1 ++ [EvCallback c]) s1
               | None => s1
               end).
    destruct (IH s2) as (s' & Hrun & Hq & Ht & Hg & Ho).
    exists s'. split.
    { simpl. unfold bind, modify, log. simpl. fold m. fold s1.
      destruct (callback w) as [c|] eqn:Hc; simpl; unfold s2 in Hrun;
        rewrite ?Hc in Hrun; exact Hrun. }
    assert (Hs2 : work_handles s2 = q /\ param_groups s2 = param_groups s /\
                  optim_param_groups s2 = optim_param_groups s /\
                  trace s2 = trace s ++ drain_events w).
    { unfold s2, drain_events. destruct (callback w); simpl;
        rewrite <- ?app_assoc; done. }
    destruct Hs2 as (Hw2 & Hg2 & Ho2 & Ht2).
    split; [rewrite Hq, Hw2; by destruct q|].
    split; [|by rewrite Hg, Ho].
    rewrite Ht, Ht2, mjoin_fmap_cons, <- app_assoc. done.
Qed.

Lemma sync_groups_local_to_global (gs ls : list group) :
  (sync_groups true gs ls).2 = ls.
Proof.
  revert ls. induction gs as [|g gs IH]; intros [|l ls]; simpl; try done.
  by rewrite IH.
Qed.

Lemma sync_groups_global_to_local (gs ls : list group) :
  (sync_groups false gs ls).1 = gs.
Proof.
  revert ls. induction gs as [|g gs IH]; intros [|l ls]; simpl; try done.
  by rewrite IH.
Qed.

(** What one synchronisation does to every key. *)
Lemma sync_group_global_to_local_lookup (g l : group) (k : string) :
  (sync_group false g l).1 = g /\
  (sync_group false g l).2 !! k =
    if decide (k = "params") then l !! k
    else match l !! k with
         | Some v => Some (default v (g !! k))
         | None => None
         end.
Proof.
  split; [done|]. simpl. rewrite map_lookup_imap.
  destruct (l !! k) as [v|]; simpl; by destruct (decide (k = "params")).
Qed.

Lemma sync_group_local_to_global_lookup (g l : group) (k : string) :
  (sync_group true g l).2 = l /\
  (sync_group true g l).1 !! k =
    if decide (k = "params") then g !! k
    else match l !! k with
         | Some v => Some v
         | None => g !! k
         end.
Proof.
  split; [done|]. simpl. unfold hyper. rewrite lookup_union.
  destruct (decide (k = "params")) as [-> | Hk].
  - rewrite map_lookup_filter_None_2; [by destruct (g !! "params")|].
    right. intros v _ H. by apply H.
  - destruct (l !! k) as [v|] eqn:Hl.
    + rewrite (map_lookup_filter_Some_2 _ _ k v); [by destruct (g !! k) | done | done].
    + rewrite map_lookup_filter_None_2; [by destruct (g !! k) | by left].
Qed.


(** [_broadcast_params]: broadcasts are issued and queued; when none of the
    lookups raises, everything queued, old and new, is then drained. *)
Lemma broadcast_params_spec (s : OSS) :
  exists hs : list Handle,
    match _broadcast_params s with
    | (Some _, s') =>
        work_handles s' = [] /\
        trace s' = trace s ++ (EvBroadcast <$> hs)
                     ++ mjoin (drain_events <$> (work_handles s ++ (plain <$> hs))) /\
        param_groups s' = param_groups s /\
        optim_param_groups s' = optim_param_groups s
    | (None, s') =>
        work_handles s' = work_handles s ++ (plain <$> hs) /\
        trace s' = trace s ++ (EvBroadcast <$> hs) /\
        param_groups s' = param_groups s /\
        optim_param_groups s' = optim_param_groups s
    end.
Proof.
  unfold _broadcast_params, bind.
  pose proof (per_device_params_issued s) as H1.
  destruct (per_device_params s) as [[pdp|] sa]; simpl in H1.
  2: { destruct H1 as (hs & Ht & Hw & Hg & Ho). by exists hs. }
  pose proof (preserves_for_fold issued pdp 0 broadcast_device
                (fun x b => broadcast_device_issued x b) sa) as H2.
  destruct (for_fold pdp 0 broadcast_device sa) as [[i|] sb]; simpl in H2.
  2: { destruct (transitivity H1 H2) as (hs & Ht & Hw & Hg & Ho). by exists hs. }
  destruct (transitivity H1 H2) as (hs & Ht & Hw & Hg & Ho).
  exists hs. unfold _consume_work_handles, bind. simpl.
  destruct (consume_spec (work_handles sb) sb) as (s' & -> & Hq & Ht' & Hg' & Ho').
  split.
  { rewrite Hq. by destruct (work_handles sb). }
  split; [|by rewrite Hg', Ho'].
  by rewrite Ht', Ht, Hw, <- app_assoc.
Qed.

End StepFacts.

(** A step on the wrapper over tensors of 3, 2 and 5 elements: the tensor
    that is not bucketed and then the bucket are broadcast, both are waited
    for in that order, and the loss of the wrapped optimizer is returned. *)
Example step_evaluated :
  let big := mkHandle (TParam (mkParam 2 0 5 true)) 0 in
  let bucket := mkHandle (TBucket 0 0) 0 in
  let r := step (Collab := Examples.example_collab) None Examples.built_once.2 in
  r.1 = Some (Some 7%Z) /\
  work_handles r.2 = [] /\
  trace r.2 = [EvOptimStep; EvBroadcast big; EvBroadcast bucket; EvWait big; EvWait bucket].
Proof. by vm_compute. Qed.

(** ** One step *)

Section StepProofs.
Context `{Collab : Collaborators}.
Import StepSpec.

Lemma sync_groups_length (b : bool) (gs ls : list group) :
  length (sync_groups b gs ls).1 = length gs /\
  length (sync_groups b gs ls).2 = length ls.
Proof.
  revert ls. induction gs as [|g gs IH]; intros [|l ls]; simpl; try done.
  destruct (IH ls) as [-> ->]. done.
Qed.

Lemma sync_groups_lookup (b : bool) (gs ls : list group) (i : nat) (g l : group) :
  gs !! i = Some g -> ls !! i = Some l ->
  (sync_groups b gs ls).1 !! i = Some (sync_group b g l).1 /\
  (sync_groups b gs ls).2 !! i = Some (sync_group b g l).2.
Proof.
  revert ls i. induction gs as [|g0 gs IH]; intros [|l0 ls] [|i] Hg Hl;
    simpl in *; try done.
  - by simplify_eq.
  - by apply IH.
Qed.

Lemma sync_groups_unpaired (b : bool) (gs ls : list group) (j : nat) :
  (gs !! j = None -> (sync_groups b gs ls).2 !! j = ls !! j) /\
  (ls !! j = None -> (sync_groups b gs ls).1 !! j = gs !! j).
Proof.
  revert ls j. induction gs as [|g0 gs IH]; intros [|l0 ls] j; simpl;
    try (split; intros; reflexivity).
  destruct j as [|j]; [split; intros H; by simplify_eq/=|]. exact (IH ls j).
Qed.

(** The copy into the local groups is the one the specification describes,
    and no other. *)
Lemma pulled_is_sync (gs ls ls' : list group) :
  groups_pulled gs ls ls' -> ls' = (sync_groups false gs ls).2.
Proof.
  intros [Hlen Hall]. apply list_eq. intros i.
  destruct (ls !! i) as [l|] eqn:Hl.
  - destruct (lookup_lt_is_Some_2 ls' i) as [l' Hl'].
    { rewrite Hlen. by eapply lookup_lt_Some. }
    specialize (Hall i l l' Hl Hl'). rewrite Hl'.
    destruct (gs !! i) as [g|] eqn:Hg.
    + destruct (sync_groups_lookup false gs ls i g l Hg Hl) as [_ ->].
      f_equal. apply map_eq. intros k. rewrite (Hall k).
      destruct (sync_group_global_to_local_lookup g l k) as [_ ->].
      destruct (decide (k = "params")); [done|].
      destruct (l !! k); [|done]. by destruct (g !! k).
    + rewrite (proj1 (sync_groups_unpaired false gs ls i) Hg).
      by rewrite Hl, Hall.
  - destruct (sync_groups_length false gs ls) as [_ Hl2].
    rewrite (lookup_ge_None_2 ls' i), (lookup_ge_None_2 (sync_groups false gs ls).2 i);
      [done | |]; apply lookup_ge_None_1 in Hl; lia.
Qed.

Lemma sync_pulls (gs ls : list group) :
  groups_pulled gs ls (sync_groups false gs ls).2.
Proof.
  split; [apply sync_groups_length|].
  intros i l l' Hl Hl'.
  destruct (gs !! i) as [g|] eqn:Hg.
  - destruct (sync_groups_lookup false gs ls i g l Hg Hl) as [_ H2].
    rewrite H2 in Hl'. injection Hl' as <-. intros k.
    destruct (sync_group_global_to_local_lookup g l k) as [_ H].
    etrans; [exact H|].
    destruct (decide (k = "params")); [done|].
    destruct (l !! k); [|done]. by destruct (g !! k).
  - rewrite (proj1 (sync_groups_unpaired false gs ls i) Hg) in Hl'. congruence.
Qed.

Lemma sync_pushes (gs ls : list group) :
  groups_pushed ls gs (sync_groups true gs ls).1.
Proof.
  split; [apply sync_groups_length|].
  intros i g g' Hg Hg'.
  destruct (ls !! i) as [l|] eqn:Hl.
  - destruct (sync_groups_lookup true gs ls i g l Hg Hl) as [H1 _].
    rewrite H1 in Hg'. injection Hg' as <-. intros k.
    destruct (sync_group_local_to_global_lookup g l k) as [_ H]. exact H.
  - destruct (sync_groups_unpaired true gs ls i) as [_ H]. rewrite H in Hg' by done.
    congruence.
Qed.

(** *** Issuing *)

Lemma queued_nil (s : OSS) : queued [] s = s.
Proof. destruct s. unfold queued. simpl. by rewrite !app_nil_r. Qed.

Lemma queued_app (hs1 hs2 : list Handle) (s : OSS) :
  queued hs2 (queued hs1 s) = queued (hs1 ++ hs2) s.
Proof.
  destruct s. unfold queued. simpl. by rewrite !fmap_app, !app_assoc.
Qed.

Lemma issue_broadcast_run (t : tensor_ref) (src : nat) (s : OSS) :
  issue_broadcast t src s = (Some tt, queued [mkHandle t src] s).
Proof. done. Qed.

Lemma broadcast_params_loop (src : nat) (ps : list Param) :
  forall (i : nat) (s : OSS),
    i + length ps <= length (should_bucket_param s) ->
    for_fold ps i (broadcast_param src) s
    = (Some (i + length ps),
       queued (omap (fun pf : Param * bool =>
                       if pf.2 then None else Some (mkHandle (TParam pf.1) src))
                    (zip ps (drop i (should_bucket_param s)))) s).
Proof.
  induction ps as [|p ps IH]; intros i s Hlen.
  - simpl. rewrite queued_nil. by rewrite Nat.add_0_r.
  - simpl in Hlen.
    destruct (lookup_lt_is_Some_2 (should_bucket_param s) i) as [f Hf]; [lia|].
    rewrite (drop_S _ _ _ Hf).
    assert (Hstep : broadcast_param src p i s
                    = (Some (i + 1),
                       queued (if f then [] else [mkHandle (TParam p) src]) s)).
    { unfold broadcast_param, bind, get, lift, ret. rewrite Hf.
      destruct f; [by rewrite queued_nil | done]. }
    simpl for_fold. rewrite (bind_run _ _ _ _ _ Hstep).
    rewrite IH by (destruct f; simpl; lia).
    replace (i + 1 + length ps) with (i + S (length ps)) by lia.
    f_equal. rewrite queued_app.
    replace (should_bucket_param (queued (if f then [] else [mkHandle (TParam p) src]) s))
      with (should_bucket_param s) by (by destruct f).
    replace (i + 1) with (S i) by lia.
    simpl. by destruct f.
Qed.

Lemma broadcast_rank_run (dev rk src : nat) (ps : list Param) (i : nat) (s : OSS) :
  get_global_rank (pgroup s) rk = Some src ->
  i + length ps <= length (should_bucket_param s) ->
  broadcast_rank dev (rk, ps) i s
  = (Some (i + length ps),
     queued (rank_sends src dev rk ps (drop i (should_bucket_param s))) s).
Proof.
  intros Hsrc Hlen. unfold broadcast_rank.
  rewrite (bind_run get _ s s s eq_refl). simpl. rewrite Hsrc. simpl.
  unfold bind at 1. simpl. rewrite (bind_run _ _ _ _ _ (broadcast_params_loop src ps i s Hlen)).
  unfold bind. rewrite issue_broadcast_run. rewrite queued_app. done.
Qed.

Lemma broadcast_ranks_loop (src_of : nat -> nat) (dev : nat) (lists : list (list Param)) :
  forall (rk i : nat) (s : OSS),
    Forall (fun r => get_global_rank (pgroup s) r = Some (src_of r))
           (seq rk (length lists)) ->
    i + length (mjoin lists) <= length (should_bucket_param s) ->
    for_fold (imap (fun j ps => (rk + j, ps)) lists) i (broadcast_rank dev) s
    = (Some (i + length (mjoin lists)),
       queued (device_sends src_of dev rk lists (drop i (should_bucket_param s))) s).
Proof.
  induction lists as [|ps lists IH]; intros rk i s Hsrc Hlen.
  - simpl. rewrite queued_nil. by rewrite Nat.add_0_r.
  - simpl in Hsrc. apply Forall_cons in Hsrc as [Hsrc0 Hsrc].
    change (mjoin (ps :: lists)) with (ps ++ mjoin lists) in *.
    rewrite length_app in *.
    simpl imap. simpl for_fold. rewrite Nat.add_0_r.
    rewrite (bind_run _ _ _ _ _ (broadcast_rank_run dev rk _ ps i s Hsrc0 ltac:(lia))).
    rewrite (imap_ext _ (fun j ps0 => (S rk + j, ps0))).
    2:{ intros j x _. simpl. f_equal. lia. }
    rewrite IH; [| exact Hsrc | simpl; lia].
    rewrite queued_app. simpl device_sends. rewrite drop_drop.
    replace (i + length ps + length (mjoin lists))
      with (i + (length ps + length (mjoin lists))) by lia.
    done.
Qed.

Lemma broadcast_device_run (src_of : nat -> nat) (dp : nat * list (list Param))
    (bs : list Buffer) (i : nat) (s : OSS) :
  buckets s !! dp.1 = Some bs -> length dp.2 <= length bs ->
  Forall (fun r => get_global_rank (pgroup s) r = Some (src_of r))
         (seq 0 (length dp.2)) ->
  i + length (mjoin dp.2) <= length (should_bucket_param s) ->
  broadcast_device dp i s
  = (Some (i + length (mjoin dp.2)),
     queued (device_sends src_of dp.1 0 dp.2 (drop i (should_bucket_param s))) s).
Proof.
  intros Hb Hbs Hsrc Hlen. unfold broadcast_device.
  rewrite (bind_run get _ s s s eq_refl), Hb. simpl. unfold bind at 1. simpl.
  rewrite take_ge by (rewrite length_imap; lia).
  rewrite <- (broadcast_ranks_loop src_of dp.1 dp.2 0 i s Hsrc Hlen).
  f_equal.
Qed.

Lemma broadcast_devices_loop (src_of : nat -> nat) (index : list (nat * list (list Param))) :
  forall (i : nat) (s : OSS),
    Forall (fun dp : nat * list (list Param) =>
              (exists bs, buckets s !! dp.1 = Some bs /\ length dp.2 <= length bs) /\
              Forall (fun r => get_global_rank (pgroup s) r = Some (src_of r))
                     (seq 0 (length dp.2)))
           index ->
    i + length (mjoin (mjoin index.*2)) <= length (should_bucket_param s) ->
    for_fold index i broadcast_device s
    = (Some (i + length (mjoin (mjoin index.*2))),
       queued (publish src_of index (drop i (should_bucket_param s))) s).
Proof.
  induction index as [|dp index IH]; intros i s Hall Hlen.
  - simpl. rewrite queued_nil. by rewrite Nat.add_0_r.
  - apply Forall_cons in Hall as [[(bs & Hb & Hbs) Hsrc] Hall].
    rewrite fmap_cons in *.
    change (mjoin (dp.2 :: index.*2)) with (dp.2 ++ mjoin index.*2) in *.
    rewrite join_app, length_app in *.
    simpl for_fold.
    rewrite (bind_run _ _ _ _ _
               (broadcast_device_run src_of dp bs i s Hb Hbs Hsrc ltac:(lia))).
    rewrite IH; [| exact Hall | simpl; lia].
    rewrite queued_app. simpl publish. rewrite drop_drop.
    replace (i + length (mjoin dp.2) + length (mjoin (mjoin index.*2)))
      with (i + (length (mjoin dp.2) + length (mjoin (mjoin index.*2)))) by lia.
    done.
Qed.

(** *** Draining *)

Lemma consume_run (q : list Workhandle) :
  forall s : OSS, consume q s = (Some tt, after_drain q s).
Proof.
  induction q as [|w q IH]; intros s.
  - simpl. unfold ret, after_drain, drained. simpl. rewrite app_nil_r. by destruct s.
  - simpl consume. unfold bind, log, modify.
    assert (Hev : mjoin (drain_events <$> w :: q)
                  = drain_events w ++ mjoin (drain_events <$> q)) by done.
    destruct (callback w) as [c|] eqn:Hc.
    + cbv beta iota. rewrite IH. f_equal. unfold after_drain, drained. rewrite Hev.
      assert (Hd : drain_events w = [EvWait (handle w); EvCallback c])
        by (unfold drain_events; by rewrite Hc).
      rewrite Hd.
      destruct s; simpl.
      match goal with
      | |- context [wait_effect (handle w) ?m] => destruct (wait_effect (handle w) m)
      end.
      destruct q; simpl; rewrite <- ?app_assoc; reflexivity.
    + unfold ret. cbv beta iota. rewrite IH. f_equal. unfold after_drain, drained. rewrite Hev.
      assert (Hd : drain_events w = [EvWait (handle w)])
        by (unfold drain_events; by rewrite Hc).
      rewrite Hd.
      destruct s; simpl.
      match goal with
      | |- context [wait_effect (handle w) ?m] => destruct (wait_effect (handle w) m)
      end.
      destruct q; simpl; rewrite <- ?app_assoc; reflexivity.
Qed.

Lemma per_device_params_cached (s : OSS) :
  _per_device_params s <> [] ->
  per_device_params s = (Some (_per_device_params s), s).
Proof.
  intros Hne. unfold per_device_params. rewrite (bind_run get _ s s s eq_refl).
  rewrite decide_False; [done|]. by destruct (_per_device_params s).
Qed.

Lemma broadcast_params_run (src_of : nat -> nat) (s : OSS) :
  ready_to_publish (pgroup s) src_of (_per_device_params s) (buckets s)
                   (should_bucket_param s) ->
  let sent := publish src_of (_per_device_params s) (should_bucket_param s) in
  _broadcast_params s
  = (Some tt, after_drain (work_handles s ++ (plain <$> sent)) (queued sent s)).
Proof.
  intros (Hne & Hall & Hlen) sent. unfold _broadcast_params.
  rewrite (bind_run _ _ _ _ _ (per_device_params_cached s Hne)).
  rewrite (bind_run _ _ _ _ _ (broadcast_devices_loop src_of _ 0 s Hall Hlen)).
  rewrite drop_0. fold sent. unfold _consume_work_handles.
  rewrite (bind_run get _ _ _ _ eq_refl). apply consume_run.
Qed.

Lemma bind_modify {B : Type} (f : OSS -> OSS) (k : M B) (s : OSS) :
  (modify f ;;; k) s = k (f s).
Proof. done. Qed.

Lemma run_optim_step_run (c : option closure) (s : OSS) :
  let r := optim_step c (mkOptimView (optim_param_groups s) (optim_state s)
                                     (pdata s) (buckets s)) in
  run_optim_step c s
  = (Some r.1,
     set_optim_param_groups (ov_groups r.2)
       (set_optim_state (ov_state r.2)
          (set_pdata (ov_pdata r.2)
             (set_buckets (ov_buckets r.2)
                (set_trace (trace s ++ [EvOptimStep]) s))))).
Proof. done. Qed.

(** C8: whatever the closure, [step] first copies the hyperparameters of
    the public groups into the groups of the wrapped optimizer, key by key
    and leaving the parameter lists alone; runs the wrapped optimizer on
    these groups, its state and the tensors, and keeps what it leaves;
    issues, for every device and every rank as source, one broadcast per
    parameter of the rank that is not bucketed and then one for the bucket
    of the rank; waits for every handle of the queue, oldest first, which
    is empty when [step] returns; copies the keys of the optimizer's groups
    back into the public groups; and returns the loss the optimizer
    returned. It returns whenever the index is cached and there is a bucket
    per rank, a global rank per rank and a flag per parameter. *)
Theorem C8_step_order (c : option closure) (s : OSS) (src_of : nat -> nat)
    (locals : list group) :
  let r := optim_step c (mkOptimView locals (optim_state s) (pdata s) (buckets s)) in
  let sent := publish src_of (_per_device_params s) (should_bucket_param s) in
  let queue := work_handles s ++ (plain <$> sent) in
  groups_pulled (param_groups s) (optim_param_groups s) locals ->
  ready_to_publish (pgroup s) src_of (_per_device_params s) (ov_buckets r.2)
                   (should_bucket_param s) ->
  exists s',
    step c s = (Some r.1, s') /\
    trace s' = trace s ++ [EvOptimStep] ++ (EvBroadcast <$> sent)
                 ++ mjoin (drain_events <$> queue) /\
    work_handles s' = [] /\
    optim_param_groups s' = ov_groups r.2 /\
    optim_state s' = ov_state r.2 /\
    (pdata s', buckets s') = drained queue (ov_pdata r.2, ov_buckets r.2) /\
    groups_pushed (ov_groups r.2) (param_groups s) (param_groups s').
Proof.
  intros r sent queue Hpull Hready.
  apply pulled_is_sync in Hpull.
  unfold step.
  set (s1 := set_optim_param_groups locals (set_param_groups (param_groups s) s)).
  assert (H1 : _sync_param_groups false s = (Some tt, s1)).
  { unfold _sync_param_groups, modify, s1.
    by rewrite <- Hpull, sync_groups_global_to_local. }
  rewrite (bind_run _ _ _ _ _ H1).
  rewrite (bind_run _ _ _ _ _ (run_optim_step_run c s1)).
  change (optim_step c (mkOptimView (optim_param_groups s1) (optim_state s1)
                                    (pdata s1) (buckets s1))) with r.
  set (s2 := set_optim_param_groups (ov_groups r.2) _).
  assert (H3 : _broadcast_params s2
               = (Some tt, after_drain queue (queued sent s2))).
  { apply (broadcast_params_run src_of s2). exact Hready. }
  rewrite (bind_run _ _ _ _ _ H3).
  set (s3 := after_drain queue (queued sent s2)).
  unfold _sync_param_groups. rewrite bind_modify. unfold ret.
  eexists. split; [reflexivity|].
  split.
  { simpl. rewrite <- !app_assoc. done. }
  split.
  { change (work_handles _)
      with (match queue with
            | [] => work_handles s ++ (plain <$> sent)
            | _ :: _ => []
            end).
    unfold queue. by destruct (work_handles s ++ (plain <$> sent)). }
  split; [simpl; apply sync_groups_local_to_global|].
  split; [done|].
  split; [simpl; by rewrite <- surjective_pairing|].
  simpl. apply sync_pushes.
Qed.

End StepProofs.


Lemma C8_step_order_witness :
  let s := Examples.built_once.2 in
  let src_of := fun r : nat => r in
  let locals := (sync_groups false (param_groups s) (optim_param_groups s)).2 in
  let r := optim_step (Collaborators := Examples.example_collab) None
             (mkOptimView locals (optim_state s) (pdata s) (buckets s)) in
  let sent := StepSpec.publish src_of (_per_device_params s) (should_bucket_param s) in
  let queue := work_handles s ++ (plain <$> sent) in
  exists s',
    step (Collab := Examples.example_collab) None s = (Some r.1, s') /\
    trace s' = trace s ++ [EvOptimStep] ++ (EvBroadcast <$> sent)
                 ++ mjoin (drain_events <$> queue) /\
    work_handles s' = [] /\
    optim_param_groups s' = ov_groups r.2 /\
    optim_state s' = ov_state r.2 /\
    (pdata s', buckets s')
      = drained (Collab := Examples.example_collab) queue (ov_pdata r.2, ov_buckets r.2) /\
    StepSpec.groups_pushed (ov_groups r.2) (param_groups s) (param_groups s').
Proof.
  apply (C8_step_order (Collab := Examples.example_collab) None Examples.built_once.2
           (fun r => r)).
  - apply sync_pulls.
  - split; [by vm_compute|]. split; [|vm_compute; lia].
    constructor; [|constructor]. split.
    + eexists. split; [vm_compute; reflexivity|]. vm_compute. lia.
    + constructor; [reflexivity | constructor].
Defined.

Example step_publishes :
  let s := Examples.built_once.2 in
  StepSpec.publish (fun r => r) (_per_device_params s) (should_bucket_param s)
  = [mkHandle (TParam (mkParam 2 0 5 true)) 0; mkHandle (TBucket 0 0) 0].
Proof. by vm_compute. Qed.

(** ** Gradient clipping *)

Section ClippingFacts.
Context `{Ops : TensorOps}.

Lemma partition_parameters_keeps {B : Type} (f : OSS -> B) :
  (forall v s, f (set_partition_parameters v s) = f s) ->
  preserves (keeps f) partition_parameters.
Proof. intros H. unfold partition_parameters. pres. apply H. Qed.

Lemma param_to_rank_keeps {B : Type} (f : OSS -> B) :
  (forall v s, f (set_partition_parameters v s) = f s) ->
  (forall v s, f (set_param_rank v s) = f s) ->
  preserves (keeps f) param_to_rank.
Proof.
  intros H1 H2. unfold param_to_rank. pres; [|apply H2].
  by apply partition_parameters_keeps.
Qed.

Lemma per_device_params_keeps {B : Type} (f : OSS -> B) :
  (forall v s, f (set_partition_parameters v s) = f s) ->
  (forall v s, f (set_param_rank v s) = f s) ->
  (forall v s, f (set_per_device_params v s) = f s) ->
  preserves (keeps f) per_device_params.
Proof.
  intros H1 H2 H3. unfold per_device_params. pres; [|apply H3].
  by apply param_to_rank_keeps.
Qed.

Lemma filter_none {A : Type} (P : A -> Prop) `{forall x, Decision (P x)} (l : list A) :
  (forall x, x ∈ l -> ~ P x) -> filter P l = [].
Proof.
  induction l as [|x l IH]; intros Hno; [done|].
  rewrite filter_cons_False by (apply Hno; by left).
  apply IH. intros y Hy. apply Hno. by right.
Qed.

Lemma local_grad_params_nil (grads : gmap Param tensor) (rk : nat)
    (pdp : list (nat * list (list Param))) (own : list Param) :
  (forall dp ps p, dp ∈ pdp -> dp.2 !! rk = Some ps -> p ∈ ps -> grads !! p = None) ->
  local_grad_params grads rk pdp = Some own -> own = [].
Proof.
  revert own. induction pdp as [|dp pdp IH]; intros own Hno Hown; simpl in Hown.
  - by inversion Hown.
  - unfold with_grad in Hown.
    destruct (dp.2 !! rk) as [ps|] eqn:Hps; [|done].
    destruct (local_grad_params grads rk pdp) as [r|]; [|done].
    inversion Hown; subst.
    rewrite (IH r); [|intros dp' ps' p Hin; apply Hno; by right | done].
    rewrite app_nil_r. apply filter_none.
    intros p Hp [g Hg]. rewrite (Hno dp ps p) in Hg; [done | by left | done | done].
Qed.

(** Neither norm can be taken over an empty list of gradients, and nothing
    is sent before that is found out. *)
Lemma total_norm_of_nil (norm_type : scalar) (s : OSS) :
  total_norm_of norm_type [] s = (None, s).
Proof. unfold total_norm_of. by destruct (is_inf norm_type). Qed.

(** C10: on a rank whose indexed parameters carry no gradient,
    [clip_grad_norm] raises, for the infinity norm (the maximum of an empty
    sequence) as for a finite one (the stack of an empty list), and no
    all-reduce has been issued when it does. The optional filter is assumed
    to return nothing when given nothing. *)
Theorem C10_clip_grad_norm_raises_without_grads (max_norm norm_type : scalar)
    (filter_params_fn : option (list Param -> list Param))
    (grads : gmap Param tensor) (s : OSS) :
  (forall pdp s1, per_device_params s = (Some pdp, s1) ->
     forall dp ps p, dp ∈ pdp -> dp.2 !! rank s = Some ps -> p ∈ ps ->
                     grads !! p = None) ->
  (forall fn, filter_params_fn = Some fn -> fn [] = []) ->
  exists s',
    clip_grad_norm max_norm norm_type filter_params_fn grads s = (None, s') /\
    trace s' = trace s /\
    py_max [] = None /\ torch_stack [] = None /\
    total_norm_of norm_type [] s' = (None, s').
Proof.
  intros Hno Hfilter.
  pose proof (per_device_params_keeps (fun s => (rank s, trace s))
                (fun _ _ => eq_refl) (fun _ _ => eq_refl) (fun _ _ => eq_refl) s) as Hkeep.
  unfold clip_grad_norm, bind.
  destruct (per_device_params s) as [[pdp|] s1] eqn:Hpdp; simpl in Hkeep;
    unfold keeps in Hkeep; injection Hkeep as Hrank Htrace.
  2: { exists s1. repeat split; try done. apply total_norm_of_nil. }
  simpl. exists s1.
  split; [|repeat split; try done; apply total_norm_of_nil].
  destruct (local_grad_params grads (rank s1) pdp) as [own|] eqn:Hown; [|done].
  assert (own = []) as ->.
  { eapply local_grad_params_nil; [|exact Hown].
    intros dp ps p. rewrite Hrank.
    first [apply (Hno pdp s1 eq_refl) | apply (Hno pdp s1 Hpdp)]. }
  simpl.
  assert (Hlocal : match filter_params_fn with Some fn => fn [] | None => [] end = []).
  { destruct filter_params_fn as [fn|]; [by apply Hfilter | done]. }
  rewrite Hlocal. simpl. by rewrite total_norm_of_nil.
Qed.

End ClippingFacts.

Lemma C10_clip_grad_norm_raises_without_grads_witness :
  exists s',
    clip_grad_norm (Ops := Examples.example_ops) 1%Z 2%Z None
      {[ Examples.lone_param := 5%Z ]} Examples.idle_rank = (None, s') /\
    trace s' = trace Examples.idle_rank /\
    py_max (Ops := Examples.example_ops) [] = None /\
    torch_stack (Ops := Examples.example_ops) [] = None /\
    total_norm_of (Ops := Examples.example_ops) 2%Z [] s' = (None, s').
Proof.
  apply (C10_clip_grad_norm_raises_without_grads (Ops := Examples.example_ops)).
  - intros pdp s1 Hrun dp ps p Hdp Hps Hp.
    vm_compute in Hrun. injection Hrun as <- <-.
    apply list_elem_of_singleton in Hdp as ->.
    vm_compute in Hps. injection Hps as <-.
    by apply elem_of_nil in Hp.
  - done.
Defined.

(** ** State consolidation *)

Section ConsolidationFacts.
Context `{Collab : Collaborators}.

Lemma set_trace_id (s : OSS) : set_trace (trace s ++ []) s = s.
Proof. destruct s. unfold set_trace. simpl. by rewrite app_nil_r. Qed.

Lemma set_trace_twice (t1 : list event) (e : list event) (s : OSS) :
  set_trace (trace (set_trace t1 s) ++ e) (set_trace t1 s) = set_trace (t1 ++ e) s.
Proof. by destruct s. Qed.

(** The loop of [_broadcast_state_dict] over any list of local ranks whose
    global ranks are known: one call per rank, in order. *)
Lemma broadcast_state_loop (s : OSS) (l gl : list nat) (s0 : OSS) :
  Forall2 (fun r g => get_global_rank (pgroup s) r = Some g) l gl ->
  (forall i g, l !! i = Some (rank s) -> gl !! i = Some g -> g = global_rank s) ->
  for_each l (fun rk =>
      if decide (rk = rank s) then
        if _torch_broadcast_object
        then broadcast_object (global_rank s)
               (Some (recursive_copy_to_device (local_state_dict s) cpu))
        else broadcast_object (global_rank s) (Some (local_state_dict s))
      else
        g <- lift (get_global_rank (pgroup s) rk) ;;
        broadcast_object g None) s0
  = (Some tt,
     set_trace (trace s0 ++ zip_with EvBroadcastObject gl
                  ((fun r => if decide (r = rank s) then Some (sent_shard s) else None) <$> l))
               s0).
Proof.
  intros Hg. revert s0. induction Hg as [|r g l gl Hr _ IH]; intros s0 Hown.
  - simpl. by rewrite set_trace_id.
  - simpl for_each. unfold bind at 1.
    assert (Hstep :
      (if decide (r = rank s) then
         if _torch_broadcast_object
         then broadcast_object (global_rank s)
                (Some (recursive_copy_to_device (local_state_dict s) cpu))
         else broadcast_object (global_rank s) (Some (local_state_dict s))
       else
         g <- lift (get_global_rank (pgroup s) r) ;;
         broadcast_object g None) s0
      = (Some tt, set_trace (trace s0 ++
           [EvBroadcastObject g (if decide (r = rank s) then Some (sent_shard s) else None)])
           s0)).
    { destruct (decide (r = rank s)) as [-> | Hne].
      - rewrite (Hown 0 g eq_refl eq_refl). unfold sent_shard.
        by destruct _torch_broadcast_object.
      - unfold bind. rewrite Hr. done. }
    rewrite Hstep. rewrite IH.
    + rewrite set_trace_twice. simpl. by rewrite <- app_assoc.
    + intros i g' Hi Hg'. by apply (Hown (S i) g').
Qed.

(** The loop of [_collect_sharded_states], likewise. *)
Lemma collect_loop (net : nat -> option StateDict) (s : OSS) (l gl : list nat)
    (acc : list StateDict) (s0 : OSS) :
  Forall2 (fun r g => get_global_rank (pgroup s) r = Some g) l gl ->
  (forall i g, l !! i = Some (rank s) -> gl !! i = Some g -> g = global_rank s) ->
  (forall i r g, l !! i = Some r -> gl !! i = Some g -> r <> rank s -> is_Some (net g)) ->
  exists shards,
    Forall2 (fun rg sd => stored_for net s rg.1 rg.2 = Some sd) (zip l gl) shards /\
    for_fold l acc (fun rk all_states =>
      if decide (rk = rank s) then
        broadcast_object (global_rank s) None ;;;
        ret (all_states ++ [recursive_copy_to_device (local_state_dict s) cpu])
      else
        g <- lift (get_global_rank (pgroup s) rk) ;;
        broadcast_object g None ;;;
        replica_state <- lift (net g) ;;
        ret (all_states ++ [recursive_copy_to_device replica_state cpu])) s0
    = (Some (acc ++ shards),
       set_trace (trace s0 ++ zip_with EvBroadcastObject gl ((fun _ => None) <$> l)) s0).
Proof.
  intros Hg. revert acc s0. induction Hg as [|r g l gl Hr _ IH]; intros acc s0 Hown Hnet.
  - exists []. split; [constructor|]. simpl. by rewrite set_trace_id, app_nil_r.
  - assert (Hstored : exists sd, stored_for net s r g = Some sd /\
      (if decide (r = rank s) then
         broadcast_object (global_rank s) None ;;;
         ret (acc ++ [recursive_copy_to_device (local_state_dict s) cpu])
       else
         g <- lift (get_global_rank (pgroup s) r) ;;
         broadcast_object g None ;;;
         replica_state <- lift (net g) ;;
         ret (acc ++ [recursive_copy_to_device replica_state cpu])) s0
      = (Some (acc ++ [sd]), set_trace (trace s0 ++ [EvBroadcastObject g None]) s0)).
    { unfold stored_for. destruct (decide (r = rank s)) as [-> | Hne].
      - eexists. split; [done|]. by rewrite (Hown 0 g eq_refl eq_refl).
      - destruct (Hnet 0 r g eq_refl eq_refl Hne) as [sd Hsd].
        exists (recursive_copy_to_device sd cpu). rewrite Hsd. split; [done|].
        unfold bind. rewrite Hr. simpl. by rewrite Hsd. }
    destruct Hstored as (sd & Hsd & Hstep).
    destruct (IH (acc ++ [sd])
                 (set_trace (trace s0 ++ [EvBroadcastObject g None]) s0))
      as (shards & Hshards & Hrun).
    { intros i g' Hi Hg'. by apply (Hown (S i) g'). }
    { intros i r' g' Hi Hg'. by apply (Hnet (S i) r' g'). }
    exists (sd :: shards). split; [by constructor|].
    simpl for_fold. unfold bind at 1. rewrite Hstep, Hrun.
    rewrite set_trace_twice. simpl. by rewrite <- !app_assoc.
Qed.


(** C7: in [consolidate_state_dict] every rank, recipient or not, issues
    exactly [world_size] object broadcasts, one per source rank, in the
    order of the ranks. The recipient passes the placeholder to all of them
    and stores, in that order, its own shard and the shard each other rank
    delivers, moved to host memory; another rank passes its shard to the
    broadcast it is the source of and the placeholder to the others, and
    stores nothing. [gsrc] lists the global ranks of the local ranks. *)
Theorem C7_consolidate_broadcast_order (net : nat -> option StateDict)
    (recipient_rank : nat) (s : OSS) (gsrc : list nat) :
  let s1 := (_sync_param_groups false s).2 in
  Forall2 (fun r g => get_global_rank (pgroup s) r = Some g)
          (seq 0 (world_size s)) gsrc ->
  (forall g, gsrc !! rank s = Some g -> g = global_rank s) ->
  (rank s = recipient_rank ->
   forall r g, gsrc !! r = Some g -> r <> rank s -> is_Some (net g)) ->
  exists s',
    consolidate_state_dict net recipient_rank s = (Some tt, s') /\
    length gsrc = world_size s /\
    trace s' = trace s ++ zip_with EvBroadcastObject gsrc
                 (payload_for recipient_rank s1 <$> seq 0 (world_size s)) /\
    if decide (rank s = recipient_rank) then
      Forall2 (fun rg sd => stored_for net s1 rg.1 rg.2 = Some sd)
              (zip (seq 0 (world_size s)) gsrc) (_all_states s')
    else _all_states s' = _all_states s.
Proof.
  intros s1 Hg Hown Hnet.
  assert (Hlen : length gsrc = world_size s).
  { apply Forall2_length in Hg. by rewrite length_seq in Hg. }
  assert (Hown' : forall i g, seq 0 (world_size s) !! i = Some (rank s1) ->
                              gsrc !! i = Some g -> g = global_rank s1).
  { intros i g Hi Hgi. apply lookup_seq in Hi as [Hi _]. simpl in Hi.
    apply Hown. by rewrite Hi. }
  unfold consolidate_state_dict.
  assert (Hsync : _sync_param_groups false s = (Some tt, s1)) by done.
  rewrite (bind_run _ _ _ _ _ Hsync), (bind_run get _ s1 s1 s1 eq_refl).
  change (rank s1) with (rank s) at 1.
  destruct (decide (rank s = recipient_rank)) as [Hrec | Hrec].
  - destruct (collect_loop net s1 (seq 0 (world_size s)) gsrc [] s1 Hg Hown')
      as (shards & Hshards & Hrun).
    { intros i r g Hi Hgi Hne. apply lookup_seq in Hi as [Hi _]. simpl in Hi.
      subst r. by apply (Hnet Hrec i g). }
    exists (set_all_states shards
              (set_trace (trace s1 ++ zip_with EvBroadcastObject gsrc
                            ((fun _ => None) <$> seq 0 (world_size s))) s1)).
    split.
    { assert (Hcollect : _collect_sharded_states net s1
                = (Some shards,
                   set_trace (trace s1 ++ zip_with EvBroadcastObject gsrc
                                ((fun _ => None) <$> seq 0 (world_size s))) s1)).
      { unfold _collect_sharded_states.
        rewrite (bind_run get _ s1 s1 s1 eq_refl).
        change (world_size s1) with (world_size s). exact Hrun. }
      by rewrite (bind_run _ _ _ _ _ Hcollect). }
    split; [done|]. split; [|done].
    simpl. f_equal. f_equal. apply list_fmap_ext. intros i r _.
    unfold payload_for. change (rank s1) with (rank s).
    by rewrite decide_True.
  - exists (set_trace (trace s1 ++ zip_with EvBroadcastObject gsrc
                         ((fun r => if decide (r = rank s1) then Some (sent_shard s1)
                                    else None) <$> seq 0 (world_size s))) s1).
    split.
    { unfold _broadcast_state_dict.
      rewrite (bind_run get _ s1 s1 s1 eq_refl).
      change (world_size s1) with (world_size s).
      apply (broadcast_state_loop s1 _ _ s1 Hg Hown'). }
    split; [done|]. split; [|done].
    simpl. f_equal. f_equal. apply list_fmap_ext. intros i r _.
    unfold payload_for. change (rank s1) with (rank s).
    by rewrite (decide_False (P := rank s = recipient_rank)).
Qed.

End ConsolidationFacts.

Lemma C7_consolidate_broadcast_order_witness :
  let s := Examples.owner_rank in
  let net := fun _ : nat => Some (mkStateDict [] []) in
  let s1 := (_sync_param_groups false s).2 in
  exists s',
    consolidate_state_dict (Collab := Examples.example_collab) net 0 s = (Some tt, s') /\
    length [0; 1] = world_size s /\
    trace s' = trace s ++ zip_with EvBroadcastObject [0; 1]
                 (payload_for (Collab := Examples.example_collab) 0 s1
                    <$> seq 0 (world_size s)) /\
    if decide (rank s = 0) then
      Forall2 (fun rg sd =>
                 stored_for (Collab := Examples.example_collab) net s1 rg.1 rg.2 = Some sd)
              (zip (seq 0 (world_size s)) [0; 1]) (_all_states s')
    else _all_states s' = _all_states s.
Proof.
  intros s net s1.
  apply (C7_consolidate_broadcast_order (Collab := Examples.example_collab)
           net 0 s [0; 1]).
  - repeat constructor.
  - intros g Hg. vm_compute in Hg. injection Hg as <-. by vm_compute.
  - intros _ r g _ _. by eexists.
Defined.

(** ** Bucket allocator *)

Section BucketFacts.
Import BucketSpec.

Lemma insert_by_numel_perm (p : Param) (l : list Param) :
  Index.insert_by_numel p l ≡ₚ p :: l.
Proof.
  induction l as [|q l IH]; simpl; [done|].
  destruct (decide (numel p <= numel q)); [done|].
  rewrite IH. apply perm_swap.
Qed.

Lemma sort_by_numel_perm (l : list Param) : Index.sort_by_numel l ≡ₚ l.
Proof.
  induction l as [|p l IH]; simpl; [done|].
  by rewrite insert_by_numel_perm, IH.
Qed.

Lemma insert_by_numel_sorted (p : Param) (l : list Param) :
  Sorted (fun a b => numel a <= numel b) l ->
  Sorted (fun a b => numel a <= numel b) (Index.insert_by_numel p l).
Proof.
  induction 1 as [|q l Hs IH Hhd]; simpl.
  - by repeat constructor.
  - destruct (decide (numel p <= numel q)) as [Hle | Hgt].
    + constructor; [by constructor | by constructor].
    + constructor; [done|].
      destruct l as [|q' l']; simpl.
      * constructor. lia.
      * destruct (decide (numel p <= numel q')).
        -- constructor. lia.
        -- constructor. by inversion Hhd.
Qed.

Lemma sort_by_numel_sorted (l : list Param) :
  Sorted (fun a b => numel a <= numel b) (Index.sort_by_numel l).
Proof.
  induction l as [|p l IH]; simpl; [constructor|].
  by apply insert_by_numel_sorted.
Qed.

(** Every per-rank list of the index is a sorted list. *)
Lemma build_index_sorted ws pr groups d dev per_rank ps :
  Index.build_index ws pr groups = Some d ->
  (dev, per_rank) ∈ d -> ps ∈ per_rank ->
  exists owned, ps = Index.sort_by_numel owned.
Proof.
  unfold Index.build_index.
  destruct (Index.index_add_all ws pr [] (groups_params groups)) as [d0|]; [|done].
  intros [= <-] Hin Hps.
  apply list_elem_of_fmap in Hin as ([dev' lists] & [= -> ->] & _).
  apply list_elem_of_fmap in Hps as (owned & -> & _). by exists owned.
Qed.

Lemma walk_end_bounds (cap : nat) (params : list Param) (offset : nat) :
  offset <= walk_end cap params offset /\
  (walk_end cap params offset = offset \/ walk_end cap params offset < cap).
Proof.
  revert offset. induction params as [|p ps IH]; intros offset; simpl; [lia|].
  destruct (requires_grad p && bool_decide (offset + numel p < cap)) eqn:Hfits.
  - apply andb_true_iff in Hfits as [_ Hlt]. apply bool_decide_eq_true in Hlt.
    destruct (IH (offset + numel p)) as [H1 [H2 | H2]]; lia.
  - apply IH.
Qed.

Lemma walk_length cap params offset : length (walk cap params offset) = length params.
Proof.
  revert offset. induction params as [|p ps IH]; intros offset; simpl; [done|].
  by rewrite IH.
Qed.

Lemma cast_same (dt : dtype) (d : list Z) : cast dt dt <$> d = d.
Proof.
  induction d as [|x d IH]; [done|]. rewrite fmap_cons, IH. f_equal.
  unfold cast. rewrite decide_False; [done | lia].
Qed.

(** The two branches of the loop body. *)
Lemma bucket_param_bucketed (device rk : nat) (p : Param) (offset : nat) (s : OSS)
    (per_rank : list Buffer) (b : Buffer) (d : list Z) :
  requires_grad p && bool_decide (offset + numel p < bucket_size s) = true ->
  buckets s !! device = Some per_rank -> per_rank !! rk = Some b ->
  bsize b <= length (storage b) -> bucket_size s <= bsize b ->
  pdata s !! p = Some (Own (bdtype b) d) -> length d = numel p ->
  exists s1,
    bucket_param device rk p offset s = (Some (offset + numel p), s1) /\
    should_bucket_param s1 = should_bucket_param s ++ [true] /\
    buckets s1 = <[device :=
                    <[rk := mkBuffer (take offset (storage b) ++ d
                                        ++ drop (offset + numel p) (storage b))
                                     (bsize b) (bdtype b)]> per_rank]> (buckets s) /\
    pdata s1 = <[p := View device rk offset (numel p)]> (pdata s) /\
    bucket_size s1 = bucket_size s.
Proof.
  intros Hfits Hdev Hrk Hst Hcap Hdata Hlen.
  pose proof Hfits as Hfits'.
  apply andb_true_iff in Hfits' as [_ Hlt]. apply bool_decide_eq_true in Hlt.
  assert (Hcopy : slice_copy b offset (offset + numel p) (bdtype b) None d
                  = Some (mkBuffer (take offset (storage b) ++ d
                                      ++ drop (offset + numel p) (storage b))
                                   (bsize b) (bdtype b))).
  { unfold slice_copy. rewrite decide_True by lia. simpl. by rewrite cast_same. }
  unfold bucket_param, bind, get, modify, lift, ret. rewrite Hfits.
  destruct (decide (offset = 0)) as [H0 | H0]; simpl;
    unfold read_data, data_dtype, aliased_range, get_bucket; rewrite Hdata, Hdev, Hrk; simpl;
    rewrite Hcopy; simpl;
    unfold put_bucket; simpl; rewrite Hdev; simpl;
    eexists; (split; [reflexivity|]); done.
Qed.

Lemma bucket_param_skipped (device rk : nat) (p : Param) (offset : nat) (s : OSS) :
  requires_grad p && bool_decide (offset + numel p < bucket_size s) = false ->
  bucket_param device rk p offset s
  = (Some offset, set_should_bucket_param (should_bucket_param s ++ [false]) s).
Proof.
  intros Hfits. unfold bucket_param, bind, get. by rewrite Hfits.
Qed.


Lemma segment_written (st d rest : list Z) (offset n : nat) :
  offset <= length st -> length d = n ->
  take n (drop offset (take offset st ++ d ++ rest)) = d.
Proof.
  intros Hoff Hlen.
  rewrite drop_app_length' by (by rewrite length_take_le).
  by rewrite take_app_length'.
Qed.

Lemma written_length (st d : list Z) (offset n : nat) :
  offset + n <= length st -> length d = n ->
  length (take offset st ++ d ++ drop (offset + n) st) = length st.
Proof.
  intros Hoff Hlen. rewrite !length_app, length_take_le, length_drop by lia. lia.
Qed.

Lemma written_prefix (st d rest : list Z) (offset : nat) :
  offset <= length st ->
  take offset (take offset st ++ d ++ rest) = take offset st.
Proof.
  intros Hoff. rewrite take_app_le by (rewrite length_take_le; lia).
  rewrite take_take. f_equal. lia.
Qed.

Lemma take_prefix_eq (l1 l2 : list Z) (n m : nat) :
  n <= m -> take m l1 = take m l2 -> take n l1 = take n l2.
Proof.
  intros Hnm Heq.
  rewrite <- (Nat.min_l n m) by done. rewrite <- !take_take. by rewrite Heq.
Qed.

Lemma segment_in_prefix (l1 l2 : list Z) (off n m : nat) :
  off + n <= m -> take m l1 = take m l2 ->
  take n (drop off l1) = take n (drop off l2).
Proof.
  intros Hle Heq. rewrite !take_drop_commute.
  f_equal. by apply (take_prefix_eq _ _ _ m).
Qed.

Lemma walk_fits cap params offset i off fits p :
  params !! i = Some p -> walk cap params offset !! i = Some (off, fits) ->
  fits = requires_grad p && bool_decide (off + numel p < cap).
Proof.
  revert offset i. induction params as [|q ps IH]; intros offset i Hp Hw; [done|].
  destruct i as [|i]; simpl in *.
  - by simplify_eq.
  - by eapply IH.
Qed.

(** The loop over the parameters of one (device, rank) pair, from any
    running offset. *)
Lemma bucket_walk_spec (device rk : nat) (params : list Param) :
  forall (offset : nat) (s : OSS) (per_rank : list Buffer) (b : Buffer),
    buckets s !! device = Some per_rank -> per_rank !! rk = Some b ->
    bsize b <= length (storage b) -> bucket_size s <= bsize b ->
    NoDup params ->
    (forall p, p ∈ params ->
       exists d, pdata s !! p = Some (Own (bdtype b) d) /\ length d = numel p) ->
    exists s' b',
      for_fold params offset (bucket_param device rk) s
        = (Some (walk_end (bucket_size s) params offset), s') /\
      should_bucket_param s'
        = should_bucket_param s ++ (snd <$> walk (bucket_size s) params offset) /\
      buckets s' = <[device := <[rk := b']> per_rank]> (buckets s) /\
      bdtype b' = bdtype b /\
      bsize b' = bsize b /\ length (storage b') = length (storage b) /\
      take offset (storage b') = take offset (storage b) /\
      bucket_size s' = bucket_size s /\
      (forall q, q ∉ params -> pdata s' !! q = pdata s !! q) /\
      (forall i p off (fits : bool),
         params !! i = Some p ->
         walk (bucket_size s) params offset !! i = Some (off, fits) ->
         offset <= off /\
         if fits then
           pdata s' !! p = Some (View device rk off (numel p)) /\
           off + numel p <= walk_end (bucket_size s) params offset /\
           exists d, pdata s !! p = Some (Own (bdtype b) d) /\
                     take (numel p) (drop off (storage b')) = d
         else pdata s' !! p = pdata s !! p).
Proof.
  induction params as [|p ps IH]; intros offset s per_rank b Hdev Hrk Hst Hcap Hnd Hown.
  - exists s, b. simpl. rewrite app_nil_r.
    repeat split; try done.
    by rewrite (list_insert_id _ _ _ Hrk), (insert_id _ _ _ Hdev).
  - apply NoDup_cons in Hnd as [Hp Hnd].
    destruct (Hown p) as (d & Hd & Hlen); [by left|].
    assert (Hrk_lt : rk < length per_rank) by (by eapply lookup_lt_Some).
    simpl walk. simpl walk_end.
    destruct (requires_grad p && bool_decide (offset + numel p < bucket_size s)) eqn:Hfits.
    + pose proof Hfits as Hfits'.
      apply andb_true_iff in Hfits' as [_ Hlt]. apply bool_decide_eq_true in Hlt.
      destruct (bucket_param_bucketed device rk p offset s per_rank b d
                  Hfits Hdev Hrk Hst Hcap Hd Hlen)
        as (s1 & Hrun1 & Hflags1 & Hb1 & Hdata1 & Hbs1).
      set (b1 := mkBuffer (take offset (storage b) ++ d
                             ++ drop (offset + numel p) (storage b))
                          (bsize b) (bdtype b)) in *.
      assert (Hlen1 : length (storage b1) = length (storage b)).
      { apply written_length; [lia | done]. }
      destruct (IH (offset + numel p) s1 (<[rk := b1]> per_rank) b1)
        as (s' & b' & Hrun & Hflags & Hbuckets & Hdt & Hbsize & Hslen & Hprefix & Hbs
            & Hframe & Hidx).
      { rewrite Hb1. apply lookup_insert_eq. }
      { by apply list_lookup_insert_eq. }
      { rewrite Hlen1. exact Hst. }
      { by rewrite Hbs1. }
      { done. }
      { intros q Hq. rewrite Hdata1, lookup_insert_ne by (intros ->; done).
        apply Hown. by right. }
      rewrite Hbs1 in *.
      exists s', b'.
      split. { simpl. by rewrite (bind_run _ _ _ _ _ Hrun1). }
      split. { rewrite Hflags, Hflags1, <- app_assoc. done. }
      split. { rewrite Hbuckets, Hb1, insert_insert_eq, list_insert_insert_eq. done. }
      split; [done|]. split; [done|]. split; [by rewrite Hslen|].
      assert (Hpre : take (offset + numel p) (storage b')
                     = take (offset + numel p) (storage b1)) by done.
      split.
      { rewrite (take_prefix_eq _ _ offset _ (Nat.le_add_r _ _) Hpre).
        apply written_prefix. lia. }
      split; [done|].
      split.
      { intros q Hq. rewrite Hframe by (intros ?; apply Hq; by right).
        rewrite Hdata1, lookup_insert_ne; [done|]. intros ->. apply Hq. by left. }
      intros [|i] q off fits Hq Hw; simpl in Hq, Hw.
      * simplify_eq. split; [done|].
        split. { rewrite Hframe by done. rewrite Hdata1. apply lookup_insert_eq. }
        split. { apply walk_end_bounds. }
        exists d. split; [done|].
        rewrite (segment_in_prefix _ _ off (numel q) _ (Nat.le_refl _) Hpre).
        apply segment_written; [lia | done].
      * assert (Hqp : q <> p).
        { intros ->. apply Hp. by eapply list_elem_of_lookup_2. }
        destruct (Hidx i q off fits Hq Hw) as [Hoff Hres]. split; [lia|].
        destruct fits.
        -- destruct Hres as (Hview & Hend & d' & Hd' & Hseg).
           split; [done|]. split; [done|].
           exists d'. split; [|done].
           by rewrite Hdata1, lookup_insert_ne in Hd'.
        -- rewrite Hres, Hdata1. by apply lookup_insert_ne.
    + set (s1 := set_should_bucket_param (should_bucket_param s ++ [false]) s).
      destruct (IH offset s1 per_rank b Hdev Hrk Hst Hcap Hnd)
        as (s' & b' & Hrun & Hflags & Hbuckets & Hdt & Hbsize & Hslen & Hprefix & Hbs
            & Hframe & Hidx).
      { intros q Hq. apply Hown. by right. }
      exists s', b'.
      split.
      { simpl. rewrite (bind_run _ _ _ _ _ (bucket_param_skipped _ _ _ _ _ Hfits)).
        exact Hrun. }
      split. { rewrite Hflags. simpl. by rewrite <- app_assoc. }
      repeat (split; [done|]).
      split. { intros q Hq. apply Hframe. intros ?. apply Hq. by right. }
      intros [|i] q off fits Hq Hw; simpl in Hq, Hw.
      * simplify_eq. split; [done|]. by apply Hframe.
      * by apply (Hidx i q off fits).
Qed.


(** The walk as it runs at construction, over a bucket that still has its
    allocated capacity and parameters that hold storage of their own in the
    dtype of the bucket: the parameters are walked in ascending size order
    from offset 0; a parameter is bucketed if and only if it is trainable and
    its end offset is strictly below the capacity; a bucketed parameter
    becomes a view of the bucket at [off, off + numel), where its data has
    been copied, and advances the offset by its element count; the others
    are left alone; and the bucket ends up resized to the final offset. *)
Lemma bucket_walk_at_construction (device rk : nat) (owned : list Param) (s : OSS)
    (per_rank : list Buffer) (b : Buffer) :
  let params := Index.sort_by_numel owned in
  let offsets := walk (bucket_size s) params 0 in
  let used := walk_end (bucket_size s) params 0 in
  buckets s !! device = Some per_rank -> per_rank !! rk = Some b ->
  bsize b <= length (storage b) -> bucket_size s <= bsize b ->
  NoDup owned ->
  (forall p, p ∈ owned ->
     exists d, pdata s !! p = Some (Own (bdtype b) d) /\ length d = numel p) ->
  Sorted (fun p q => numel p <= numel q) params /\ params ≡ₚ owned /\
  exists s' b',
    bucket_rank device (rk, params) s = (Some tt, s') /\
    should_bucket_param s' = should_bucket_param s ++ (snd <$> offsets) /\
    get_bucket s' device rk = Some b' /\ bsize b' = used /\
    forall i p off (fits : bool),
      params !! i = Some p -> offsets !! i = Some (off, fits) ->
      (fits = true <-> requires_grad p = true /\ off + numel p < bucket_size s) /\
      if fits then
        pdata s' !! p = Some (View device rk off (numel p)) /\
        off + numel p <= used /\
        read_data s' p = read_data s p /\
        exists d, read_data s p = Some d /\
                  take (numel p) (drop off (contents b')) = d
      else pdata s' !! p = pdata s !! p.
Proof.
  intros params offsets used Hdev Hrk Hst Hcap Hnd Hown.
  split; [apply sort_by_numel_sorted|]. split; [apply sort_by_numel_perm|].
  assert (Hnd' : NoDup params).
  { unfold params. by rewrite sort_by_numel_perm. }
  assert (Hown' : forall p, p ∈ params ->
            exists d, pdata s !! p = Some (Own (bdtype b) d) /\ length d = numel p).
  { intros p Hp. apply Hown. unfold params in Hp. by rewrite sort_by_numel_perm in Hp. }
  destruct (bucket_walk_spec device rk params 0 s per_rank b Hdev Hrk Hst Hcap Hnd' Hown')
    as (s1 & b1 & Hrun & Hflags & Hbuckets & _ & Hbsize & Hslen & _ & Hbs & Hframe & Hidx).
  fold used in Hrun, Hidx. fold offsets in Hflags, Hidx.
  assert (Hrk_lt : rk < length per_rank) by (by eapply lookup_lt_Some).
  assert (Hused : used <= length (storage b1)).
  { destruct (walk_end_bounds (bucket_size s) params 0) as [_ [H | H]];
      fold used in H; lia. }
  assert (Hstorage : storage (resize_ b1 used) = storage b1).
  { unfold resize_. simpl. replace (used - length (storage b1)) with 0 by lia.
    apply app_nil_r. }
  assert (Hget1 : get_bucket s1 device rk = Some b1).
  { unfold get_bucket. rewrite Hbuckets, lookup_insert_eq.
    by apply list_lookup_insert_eq. }
  set (s2 := put_bucket device rk (resize_ b1 used) s1).
  assert (Hb2 : buckets s2 = <[device := <[rk := resize_ b1 used]> per_rank]> (buckets s)).
  { unfold s2, put_bucket. rewrite Hbuckets, lookup_insert_eq. simpl.
    by rewrite insert_insert_eq, list_insert_insert_eq. }
  assert (Hdata2 : pdata s2 = pdata s1).
  { unfold s2, put_bucket. by destruct (buckets s1 !! device). }
  assert (Hflags2 : should_bucket_param s2 = should_bucket_param s1).
  { unfold s2, put_bucket. by destruct (buckets s1 !! device). }
  exists s2, (resize_ b1 used).
  split.
  { unfold bucket_rank. simpl fst. simpl snd.
    rewrite (bind_run _ _ _ _ _ Hrun), (bind_run get _ s1 s1 s1 eq_refl), Hget1.
    done. }
  split; [by rewrite Hflags2|].
  split.
  { unfold get_bucket. rewrite Hb2, lookup_insert_eq.
    by apply list_lookup_insert_eq. }
  split; [done|].
  intros i p off fits Hp Hw.
  split.
  { rewrite (walk_fits _ _ _ _ _ _ _ Hp Hw), andb_true_iff, bool_decide_eq_true.
    done. }
  destruct (Hidx i p off fits Hp Hw) as [_ Hres].
  destruct fits; [|by rewrite Hdata2].
  destruct Hres as (Hview & Hend & d & Hd & Hseg).
  assert (Hread : read_data s p = Some d) by (unfold read_data; by rewrite Hd).
  assert (Hread2 : read_data s2 p = Some d).
  { unfold read_data. rewrite Hdata2, Hview, Hb2, lookup_insert_eq.
    rewrite list_lookup_insert_eq by done. by rewrite Hstorage, Hseg. }
  split; [by rewrite Hdata2|]. split; [done|]. split; [by rewrite Hread2|].
  exists d. split; [done|].
  unfold contents. rewrite Hstorage. simpl bsize.
  rewrite <- Hseg. apply (segment_in_prefix _ _ off (numel p) used Hend).
  rewrite take_take. f_equal. lia.
Qed.

End BucketFacts.

Example bucket_walk_at_construction_applied :
  let s := Examples.fresh_buckets in
  let params := Index.sort_by_numel Examples.owned_params in
  let offsets := BucketSpec.walk (bucket_size s) params 0 in
  let used := BucketSpec.walk_end (bucket_size s) params 0 in
  Sorted (fun p q => numel p <= numel q) params /\ params ≡ₚ Examples.owned_params /\
  exists s' b',
    bucket_rank 0 (0, params) s = (Some tt, s') /\
    should_bucket_param s' = should_bucket_param s ++ (snd <$> offsets) /\
    get_bucket s' 0 0 = Some b' /\ bsize b' = used /\
    forall i p off (fits : bool),
      params !! i = Some p -> offsets !! i = Some (off, fits) ->
      (fits = true <-> requires_grad p = true /\ off + numel p < bucket_size s) /\
      if fits then
        pdata s' !! p = Some (View 0 0 off (numel p)) /\
        off + numel p <= used /\
        read_data s' p = read_data s p /\
        exists d, read_data s p = Some d /\
                  take (numel p) (drop off (contents b')) = d
      else pdata s' !! p = pdata s !! p.
Proof.
  apply (bucket_walk_at_construction 0 0 Examples.owned_params Examples.fresh_buckets
           [zeros 8 float32] (zeros 8 float32)).
  - reflexivity.
  - reflexivity.
  - simpl. lia.
  - simpl. lia.
  - apply (bool_decide_unpack _). by vm_compute.
  - intros p Hp.
    repeat (apply elem_of_cons in Hp as [-> | Hp]);
      [eexists; split; [reflexivity | reflexivity] ..|].
    by apply elem_of_nil in Hp.
Qed.

(** The same walk, evaluated: sizes 2 and 3 are bucketed at offsets 0 and
    2, size 5 does not fit below the capacity 8, and the bucket is cut to 5
    elements. *)
Example bucket_walk_evaluated :
  let r := bucket_rank 0 (0, Index.sort_by_numel Examples.owned_params)
             Examples.fresh_buckets in
  r.1 = Some tt /\
  should_bucket_param r.2 = [true; true; false] /\
  (contents <$> get_bucket r.2 0 0) = Some [20; 21; 30; 31; 32]%Z.
Proof. by vm_compute. Qed.

(** C5 fails on the code: the walk is as claimed only while the bucket has
    the capacity it was allocated with, that is at construction
    ([bucket_walk_at_construction]). The buckets are allocated once, in the
    constructor, and every walk cuts them to the used length, so a later
    walk finds a bucket shorter than the capacity it tests against. On one
    rank, with trainable tensors of 3 and 2 elements, the capacity is 5 and
    the first walk buckets the tensor of 2 elements and cuts the bucket to
    2. Adding a trainable tensor of 1 element re-runs the walk over the
    sizes 1, 2, 3: the claim has the tensor of 2 elements copied to [1, 3)
    and aliased there, and the bucket cut to 3. The code copies the new
    tensor over the first element of the tensor of 2 elements, which is
    aliased at [0, 2), flags that tensor as bucketed and raises on its copy
    into the bucket of 2 elements: the tensor stays aliased at [0, 2) with
    its first value lost, and the bucket is never cut to the final offset. *)
Theorem C5_bucket_walk_breaks_on_rerun :
  let built := Examples.duo_built in
  let grown := add_param_group Examples.late_group built.2 in
  let walked := [Examples.late; Examples.narrow; Examples.wide] in
  built.1 = Some tt /\ bucket_size built.2 = 5 /\
  _per_device_params built.2 = [(0, [[Examples.narrow; Examples.wide]])] /\
  BucketSpec.walk 5 [Examples.narrow; Examples.wide] 0 = [(0, true); (2, false)] /\
  should_bucket_param built.2 = [true; false] /\
  pdata built.2 !! Examples.narrow = Some (View 0 0 0 2) /\
  (contents <$> get_bucket built.2 0 0) = Some [20; 21]%Z /\
  read_data built.2 Examples.narrow = Some [20; 21]%Z /\
  bucket_size grown.2 = 5 /\
  _per_device_params grown.2 = [(0, [walked])] /\
  BucketSpec.walk 5 walked 0 = [(0, true); (1, true); (3, false)] /\
  BucketSpec.walk_end 5 walked 0 = 3 /\
  grown.1 = None /\
  should_bucket_param grown.2 = [true; false; true; true] /\
  pdata grown.2 !! Examples.late = Some (View 0 0 0 1) /\
  pdata grown.2 !! Examples.narrow = Some (View 0 0 0 2) /\
  read_data grown.2 Examples.narrow = Some [10; 21]%Z /\
  (bsize <$> get_bucket grown.2 0 0) = Some 2.
Proof. by vm_compute. Qed.

(** ** What the index holds *)

Section IndexFacts.

Lemma od_get_set_eq {V : Type} (k : nat) (v : V) (d : list (nat * V)) :
  od_get k (od_set k v d) = Some v.
Proof.
  induction d as [|[k' v'] d IH]; simpl.
  - by rewrite decide_True.
  - destruct (decide (k' = k)) as [-> | Hne]; simpl.
    + by rewrite decide_True.
    + by rewrite decide_False.
Qed.

Lemma od_get_set_ne {V : Type} (k k' : nat) (v : V) (d : list (nat * V)) :
  k <> k' -> od_get k' (od_set k v d) = od_get k' d.
Proof.
  intros Hne. induction d as [|[k0 v0] d IH]; simpl.
  - by rewrite decide_False.
  - destruct (decide (k0 = k)) as [-> | Hk0]; simpl.
    + by rewrite !decide_False.
    + destruct (decide (k0 = k')); [done | exact IH].
Qed.

Lemma od_get_fmap {V W : Type} (f : V -> W) (k : nat) (d : list (nat * V)) :
  od_get k (map (fun e => (e.1, f e.2)) d) = f <$> od_get k d.
Proof.
  induction d as [|[k' v'] d IH]; simpl; [done|].
  by destruct (decide (k' = k)).
Qed.

(** The index under construction, after the parameters [l] have been
    entered: every device entered has one list per rank, holding the
    parameters of [l] on that device and of that rank in order, and a device
    not entered has no parameter in [l]. *)
Lemma index_add_all_owned (ws : nat) (pr : gmap Param nat) (ps : list Param) :
  forall (l : list Param) (d d' : list (nat * list (list Param))),
    (forall dev, match od_get dev d with
                 | Some per_rank =>
                     length per_rank = ws /\
                     forall rk, rk < ws -> per_rank !! rk = Some (owned_on pr dev rk l)
                 | None => forall p, p ∈ l -> pdevice p <> dev
                 end) ->
    Index.index_add_all ws pr d ps = Some d' ->
    forall dev, match od_get dev d' with
                | Some per_rank =>
                    length per_rank = ws /\
                    forall rk, rk < ws ->
                               per_rank !! rk = Some (owned_on pr dev rk (l ++ ps))
                | None => forall p, p ∈ l ++ ps -> pdevice p <> dev
                end.
Proof.
  induction ps as [|p ps IH]; intros l d d' Hinv Hrun.
  - simpl in Hrun. injection Hrun as <-. by rewrite app_nil_r.
  - simpl in Hrun.
    destruct (Index.index_add ws pr d p) as [d1|] eqn:Hadd; simpl in Hrun; [|done].
    replace (l ++ p :: ps) with ((l ++ [p]) ++ ps) by (by rewrite <- app_assoc).
    apply (IH (l ++ [p]) d1 d'); [|done].
    unfold Index.index_add in Hadd.
    destruct (pr !! p) as [r|] eqn:Hr; simpl in Hadd; [|done].
    set (per_rank := default (replicate ws []) (od_get (pdevice p) d)) in *.
    destruct (per_rank !! r) as [lr|] eqn:Hlr; simpl in Hadd; [|done].
    injection Hadd as <-.
    assert (Hper : length per_rank = ws /\
                   forall rk, rk < ws ->
                              per_rank !! rk = Some (owned_on pr (pdevice p) rk l)).
    { unfold per_rank. specialize (Hinv (pdevice p)).
      destruct (od_get (pdevice p) d) as [pr0|]; simpl; [done|].
      split; [apply length_replicate|]. intros rk Hrk.
      rewrite lookup_replicate_2 by done. f_equal. symmetry.
      apply filter_none. intros q Hq [Hdev _]. by apply (Hinv q). }
    destruct Hper as [Hlen Hlists].
    intros dev. destruct (decide (pdevice p = dev)) as [<- | Hdev].
    + rewrite od_get_set_eq. split; [by rewrite length_alter|].
      intros rk Hrk. unfold owned_on. rewrite filter_app.
      destruct (decide (rk = r)) as [-> | Hne].
      * rewrite list_lookup_alter_eq, (Hlists r Hrk). simpl.
        by rewrite filter_cons_True.
      * rewrite list_lookup_alter_ne by done. rewrite (Hlists rk Hrk).
        rewrite filter_cons_False; [by rewrite filter_nil, app_nil_r|].
        intros [_ H]. congruence.
    + rewrite od_get_set_ne by done. specialize (Hinv dev).
      destruct (od_get dev d) as [pr0|].
      * destruct Hinv as [Hl0 Hlists0]. split; [done|].
        intros rk Hrk. rewrite (Hlists0 rk Hrk). unfold owned_on.
        rewrite filter_app, filter_cons_False; [by rewrite filter_nil, app_nil_r|].
        intros [H _]. done.
      * intros q Hq. apply elem_of_app in Hq as [Hq | Hq]; [by apply Hinv|].
        apply list_elem_of_singleton in Hq as ->. done.
Qed.

(** What [self.per_device_params[device][rank]] is: the parameters of the
    groups that live on the device and that the parameter-to-rank map gives
    to the rank, sorted by element count, ties in group order. *)
Lemma build_index_owned (ws : nat) (pr : gmap Param nat) (groups : list group)
    (d : list (nat * list (list Param))) (dev rk : nat) (per_rank : list (list Param)) :
  Index.build_index ws pr groups = Some d ->
  od_get dev d = Some per_rank -> rk < ws ->
  per_rank !! rk
  = Some (Index.sort_by_numel (owned_on pr dev rk (groups_params groups))).
Proof.
  unfold Index.build_index.
  destruct (Index.index_add_all ws pr [] (groups_params groups)) as [d0|] eqn:Hrun; [|done].
  intros [= <-] Hget Hrk.
  rewrite od_get_fmap in Hget.
  pose proof (index_add_all_owned ws pr (groups_params groups) [] [] d0) as Hinv.
  specialize (Hinv (fun dev => ltac:(simpl; intros p Hp; by apply elem_of_nil in Hp))
                   Hrun dev).
  destruct (od_get dev d0) as [lists|]; simpl in Hget; [|done].
  injection Hget as <-. destruct Hinv as [_ Hlists].
  rewrite list_lookup_fmap, (Hlists rk Hrk). done.
Qed.

End IndexFacts.

(** ** Caches and construction *)

(** Breaks the cache and bucket methods down as well. *)
Ltac pres_unfolding :=
  repeat first
    [ pres_step
    | progress unfold _setup_bucket_strategy, per_device_params, param_to_rank,
        partition_parameters, bucket_device, bucket_rank, bucket_param,
        allocate_buckets, clear_caches ].

Section CacheFacts.

Lemma partition_parameters_run (s s' : OSS) (parts : list (list group)) :
  partition_parameters s = (Some parts, s') ->
  partition_fresh s ->
  _partition_parameters s' = parts /\
  partition_fresh s' /\
  (parts <> [] ->
   exists gs, same_params gs (param_groups s) /\
              Partitioner.partition (world_size s) gs = Some parts) /\
  s' = set_partition_parameters parts s.
Proof.
  unfold partition_parameters, bind, get.
  destruct (decide (length (_partition_parameters s) = 0)) as [Hempty | Hcached].
  - destruct (Partitioner.partition (world_size s) (param_groups s)) as [ps|] eqn:Hp;
      simpl; [|done].
    intros [= <- <-] _. split; [done|].
    assert (Hex : exists gs, same_params gs (param_groups s) /\
                     Partitioner.partition (world_size s) gs = Some ps).
    { by exists (param_groups s). }
    split; [by right|]. by split.
  - intros [= <- <-] Hfresh.
    destruct Hfresh as [Hnil | Hex].
    { rewrite Hnil in Hcached. done. }
    split; [done|]. split; [by right|]. split; [done|]. by destruct s.
Qed.

Lemma partition_length (ws : nat) (gs : list group) (parts : list (list group)) :
  1 <= ws -> Partitioner.partition ws gs = Some parts -> length parts = ws.
Proof.
  intros Hws Hpart.
  assert (Hall : Forall (fun g => is_Some (group_params g)) gs).
  { revert Hpart. unfold Partitioner.partition.
    generalize (replicate ws 0) (replicate ws ([] : list group)).
    induction gs as [|g gs IH]; intros sizes ps H; [done|].
    simpl in H. destruct (group_params g) as [l|] eqn:Hl; [|done]. simpl in H.
    destruct (Partitioner.assign_params l sizes (replicate ws [])) as [[sz pl]|]; [|done].
    simpl in H. constructor; [done | by eapply IH]. }
  destruct (partition_spec ws gs Hws Hall) as (rss & sizes' & _ & Heq).
  rewrite Hpart in Heq. injection Heq as ->.
  by rewrite length_fmap, length_seq.
Qed.

Lemma param_to_rank_run (s s' : OSS) (pr : gmap Param nat) :
  param_to_rank s = (Some pr, s') ->
  partition_fresh s -> rank_fresh s ->
  pr = Index.build_param_rank (_partition_parameters s') /\
  partition_fresh s' /\
  _param_rank s' = pr /\
  param_groups s' = param_groups s /\ world_size s' = world_size s /\
  (1 <= world_size s ->
   exists gs, same_params gs (param_groups s) /\
              Partitioner.partition (world_size s) gs = Some (_partition_parameters s')).
Proof.
  unfold param_to_rank. intros Hrun Hpart Hrank.
  rewrite (bind_run get _ s s s eq_refl) in Hrun.
  destruct (decide (size (_param_rank s) = 0)) as [Hempty | Hcached].
  - apply bind_Some in Hrun as (parts & s1 & Hparts & Hrun).
    destruct (partition_parameters_run _ _ _ Hparts Hpart) as (Hc & Hfresh & Hex & ->).
    unfold bind, modify, ret in Hrun. simpl in Hrun. injection Hrun as <- <-.
    simpl. split; [done|].
    assert (Hfresh' : partition_fresh
                        (set_param_rank (Index.build_param_rank parts)
                           (set_partition_parameters parts s))).
    { destruct Hfresh as [Hnil | (gs & Hsame & Hp)]; [by left | right].
      by exists gs. }
    split; [done|]. repeat (split; [done|]).
    intros Hws. apply Hex. intros ->.
    unfold partition_parameters in Hparts.
    rewrite (bind_run get _ s s s eq_refl) in Hparts.
    destruct (decide (length (_partition_parameters s) = 0)) as [He | Hne].
    + apply bind_Some in Hparts as (ps & s2 & Hl & Hparts).
      destruct (Partitioner.partition (world_size s) (param_groups s)) as [ps'|] eqn:Hp;
        simpl in Hl; [|done].
      injection Hl as <- <-.
      unfold bind, modify, ret in Hparts. simpl in Hparts. injection Hparts as ->.
      apply partition_length in Hp; [|done]. simpl in Hp. lia.
    + injection Hparts as Hnil. rewrite Hnil in Hne. done.
  - injection Hrun as <- <-.
    destruct Hrank as [Hnil | [Hne Heq]].
    { rewrite Hnil, map_size_empty in Hcached. done. }
    repeat (split; [done|]). intros _.
    destruct Hpart as [Hnil | Hex]; done.
Qed.

(** The map built from a partition knows exactly the parameters of the
    partition, and the ranks it gives are positions of the partition. *)
Lemma build_param_rank_lookup (parts : list (list group)) (p : Param) :
  (is_Some (Index.build_param_rank parts !! p)
   <-> p ∈ mjoin (groups_params <$> parts)) /\
  (forall r, Index.build_param_rank parts !! p = Some r -> r < length parts).
Proof.
  unfold Index.build_param_rank.
  assert (Hgen : forall (l : list (nat * list group)) (m : gmap Param nat),
    let m' := foldl (fun m rp => foldl (fun m' p => <[p := rp.1]> m') m
                                       (groups_params rp.2)) m l in
    (is_Some (m' !! p) <-> is_Some (m !! p) \/ p ∈ mjoin ((fun rp => groups_params rp.2) <$> l))
    /\ (forall r, m' !! p = Some r -> m !! p = Some r \/ exists gs, (r, gs) ∈ l)).
  { induction l as [|[r gs] l IH]; intros m; simpl.
    - split; [|by left]. split; [by left|]. intros [H|H]; [done|].
      by apply elem_of_nil in H.
    - assert (Hin : forall (ps : list Param) (m0 : gmap Param nat),
        (is_Some (foldl (fun m' p => <[p := r]> m') m0 ps !! p)
         <-> is_Some (m0 !! p) \/ p ∈ ps) /\
        (forall r', foldl (fun m' p => <[p := r]> m') m0 ps !! p = Some r' ->
                    m0 !! p = Some r' \/ r' = r)).
      { induction ps as [|q ps IHps]; intros m0; simpl.
        - split; [|by left]. split; [by left|]. intros [H|H]; [done|].
          by apply elem_of_nil in H.
        - destruct (IHps (<[q := r]> m0)) as [H1 H2]. split.
          + rewrite H1. destruct (decide (q = p)) as [-> | Hne].
            * rewrite lookup_insert_eq. split; [|by left].
              intros _. right. by left.
            * rewrite lookup_insert_ne by done. rewrite elem_of_cons.
              split; [intros [?|?]; [by left | by right; right]|].
              intros [?|[?|?]]; [by left | done | by right].
          + intros r' Hr'. destruct (H2 r' Hr') as [H | H]; [|by right].
            destruct (decide (q = p)) as [-> | Hne].
            * rewrite lookup_insert_eq in H. right. congruence.
            * rewrite lookup_insert_ne in H by done. by left. }
      destruct (IH (foldl (fun m' p => <[p := r]> m') m (groups_params gs))) as [H1 H2].
      destruct (Hin (groups_params gs) m) as [H3 H4].
      split.
      + rewrite H1, H3, elem_of_app. tauto.
      + intros r' Hr'. destruct (H2 r' Hr') as [H | (gs' & H)].
        * destruct (H4 r' H) as [? | ->]; [by left|].
          right. exists gs. by left.
        * right. exists gs'. by right. }
  destruct (Hgen (imap pair parts) ∅) as [H1 H2]. split.
  - rewrite H1, lookup_empty.
    assert (Heq : (fun rp : nat * list group => groups_params rp.2) <$> imap pair parts
                  = groups_params <$> parts).
    { rewrite fmap_imap. apply list_eq. intros i.
      by rewrite list_lookup_imap, list_lookup_fmap. }
    rewrite Heq. split; [intros [[? ?]|?]; done | by right].
  - intros r Hr. destruct (H2 r Hr) as [H | (gs & H)]; [by rewrite lookup_empty in H|].
    apply list_elem_of_lookup in H as (i & Hi).
    rewrite list_lookup_imap in Hi.
    destruct (parts !! i) eqn:Hpi; simpl in Hi; [|done].
    injection Hi as <- _. by eapply lookup_lt_Some.
Qed.


Lemma partition_groups_Some_params ws groups sizes parts res :
  Partitioner.partition_groups ws groups sizes parts = Some res ->
  Forall (fun g => is_Some (group_params g)) groups.
Proof.
  revert sizes parts. induction groups as [|g gs IH]; intros sizes parts H; [done|].
  simpl in H. destruct (group_params g) as [ps|] eqn:Hps; [|done]. simpl in H.
  destruct (Partitioner.assign_params ps sizes (replicate ws [])) as [[sz pl]|]; [|done].
  simpl in H. constructor; [done | by eapply IH].
Qed.

Lemma same_params_groups_params (gs1 gs2 : list group) :
  same_params gs1 gs2 -> groups_params gs1 = groups_params gs2.
Proof.
  unfold same_params, groups_params. intros H. f_equal.
  apply (f_equal (fmap (default []))) in H.
  by rewrite <- !list_fmap_compose in H.
Qed.

(** Over a partition of groups without repeated parameter, the keys of the
    parameter-to-rank map are all the parameters, trainable or not. *)
Lemma model_size_partition (ws : nat) (gs groups : list group)
    (parts : list (list group)) :
  1 <= ws -> same_params gs groups ->
  Partitioner.partition ws gs = Some parts ->
  NoDup (groups_params groups) ->
  model_size (Index.build_param_rank parts) = total_numel groups.
Proof.
  intros Hws Hsame Hpart Hnd.
  pose proof (partition_groups_Some_params _ _ _ _ _ Hpart) as Hall.
  destruct (partition_spec ws gs Hws Hall) as (rss & sizes' & Hg & Heq).
  rewrite Hpart in Heq. injection Heq as ->.
  pose proof (shards_perm ws _ _ _ _ Hg (length_replicate _ _)) as Hperm.
  rewrite (same_params_groups_params _ _ Hsame) in Hperm.
  unfold model_size, total_numel.
  set (parts := (fun r => GreedySpec.shard_of r gs rss) <$> seq 0 ws).
  assert (Hkeys : (map_to_list (Index.build_param_rank parts)).*1 ≡ₚ groups_params groups).
  { apply NoDup_Permutation; [apply NoDup_fst_map_to_list | done |].
    intros p. rewrite <- Hperm.
    destruct (build_param_rank_lookup parts p) as [Hdom _].
    unfold parts in Hdom. rewrite <- list_fmap_compose in Hdom.
    rewrite <- Hdom. rewrite list_elem_of_fmap. split.
    - intros ([q r] & -> & Hin). apply elem_of_map_to_list in Hin. by exists r.
    - intros [r Hr]. exists (p, r). split; [done|]. by apply elem_of_map_to_list. }
  by rewrite Hkeys.
Qed.

Lemma group_params_sync_local_to_global (g l : group) :
  group_params (hyper l ∪ g) = group_params g.
Proof.
  unfold group_params.
  destruct (sync_group_local_to_global_lookup g l "params") as [_ H].
  simpl in H. by rewrite H.
Qed.

Lemma sync_groups_same_params (l2g : bool) (gs ls : list group) :
  same_params (sync_groups l2g gs ls).1 gs.
Proof.
  unfold same_params. revert ls.
  induction gs as [|g gs IH]; intros [|l ls]; simpl; try done.
  rewrite IH. f_equal. destruct l2g; simpl; [|done].
  apply group_params_sync_local_to_global.
Qed.

Lemma per_device_params_run (s s' : OSS) (pdp : list (nat * list (list Param))) :
  per_device_params s = (Some pdp, s') ->
  partition_fresh s -> rank_fresh s ->
  partition_fresh s' /\ rank_fresh s' /\
  param_groups s' = param_groups s /\ world_size s' = world_size s.
Proof.
  unfold per_device_params. intros Hrun Hpart Hrank.
  rewrite (bind_run get _ s s s eq_refl) in Hrun.
  destruct (decide (length (_per_device_params s) = 0)); [|by injection Hrun as <- <-].
  destruct (groups_params (param_groups s)); [by injection Hrun as <- <-|].
  apply bind_Some in Hrun as (pr & s1 & Hpr & Hrun).
  destruct (param_to_rank_run _ _ _ Hpr Hpart Hrank) as (Hprv & Hfresh & Hcache & Hg & Hw & _).
  apply bind_Some in Hrun as (d & s2 & Hd & Hrun).
  destruct (Index.build_index (world_size s) pr (param_groups s)); simpl in Hd; [|done].
  injection Hd as <- <-.
  unfold bind, modify, ret in Hrun. simpl in Hrun. injection Hrun as <- <-.
  split; [done|]. split; [|done].
  unfold rank_fresh. simpl.
  destruct (decide (_partition_parameters s1 = [])) as [Hnil | Hne].
  - left. rewrite Hcache, Hprv, Hnil. done.
  - right. split; [done|]. by rewrite Hcache.
Qed.


Lemma put_bucket_keeps {B : Type} (f : OSS -> B) (device rk : nat) (b : Buffer)
    (s : OSS) :
  (forall v s, f (set_buckets v s) = f s) ->
  f (put_bucket device rk b s) = f s.
Proof. intros H. unfold put_bucket. destruct (buckets s !! device); [apply H | done]. Qed.

Lemma put_bucket_untouched (device rk : nat) (b : Buffer) (s : OSS) :
  untouched_by_setup (put_bucket device rk b s) = untouched_by_setup s.
Proof. by apply put_bucket_keeps. Qed.

(** The bucket setup assigns the caches, the buckets, the classification,
    the handle count and the tensors' storage, and nothing else. *)
Lemma setup_untouched : preserves (keeps untouched_by_setup) _setup_bucket_strategy.
Proof.
  pres_unfolding; unfold keeps; try reflexivity; apply put_bucket_untouched.
Qed.

Lemma for_each_add_in_constructor (l : list group) (s : OSS) :
  in_super_constructor s = true ->
  for_each l add_param_group s
  = (Some tt,
     set_param_groups
       (foldl (fun acc g => base_add_param_group (defaults s) g acc) (param_groups s) l) s).
Proof.
  revert s. induction l as [|g l IH]; intros s Hc; simpl.
  - by destruct s.
  - unfold bind at 1. unfold add_param_group at 1, bind, modify, get. simpl.
    rewrite Hc. simpl. rewrite IH by done. by destruct s.
Qed.

End CacheFacts.

(** ** Bucket capacity *)

Section CapacityFacts.

Ltac mstep H a s1 Ha := apply bind_Some in H as (a & s1 & Ha & H).
Ltac mmodify H := 
  let a := fresh "u" in let s1 := fresh "s" in let Ha := fresh "Hm" in
  apply bind_Some in H as (a & s1 & Ha & H);
  unfold modify in Ha; injection Ha as <- <-.
Ltac mlift H a Ha :=
  let s1 := fresh "s" in let Hl := fresh "Hl" in
  apply bind_Some in H as (a & s1 & Hl & H);
  match type of Hl with
  | lift ?o _ = _ => destruct o eqn:Ha; simpl in Hl; [injection Hl as <- <-|done]
  end.

(** C4, as the code has it: after construction the bucket capacity is the
    minimum of the configured maximum buffer size and the total element
    count of all the parameters, trainable or not (the parameters being
    distinct tensors). *)
Theorem C4_bucket_size_counts_all_parameters (params : list group)
    (broadcast_buffer_size : nat) (default optim_class_defaults : group)
    (ws rk : nat) (pg : option (list nat)) (data : gmap Param Storage) (s' : OSS) :
  1 <= ws ->
  init params broadcast_buffer_size (blank default optim_class_defaults ws rk pg data)
    = (Some tt, s') ->
  NoDup (groups_params (param_groups s')) ->
  bucket_size s' = broadcast_buffer_size `min` total_numel (param_groups s').
Proof.
  intros Hws Hinit Hnd. unfold init in Hinit.
  set (s0 := blank default optim_class_defaults ws rk pg data) in *.
  mstep Hinit u1 s1 H1.
  rewrite for_each_add_in_constructor in H1 by done. injection H1 as _ <-.
  mmodify Hinit.
  rewrite (bind_run get _ _ _ _ eq_refl) in Hinit.
  mlift Hinit g Hg.
  mmodify Hinit.
  mstep Hinit parts s2 Hparts.
  apply partition_parameters_run in Hparts as (_ & Hfresh2 & _ & Hs2); [|by left].
  mlift Hinit shard Hshard.
  mmodify Hinit.
  mstep Hinit u3 s3 Hsync. unfold _sync_param_groups, modify in Hsync.
  injection Hsync as _ <-.
  mmodify Hinit.
  mstep Hinit pdp s4 Hpdp.
  apply per_device_params_run in Hpdp as (Hfresh4 & Hrank4 & Hg4 & Hw4).
  2: { destruct Hfresh2 as [Hnil | (gs & Hsame & Hp)]; [by left | right].
       exists gs. split; [|exact Hp].
       unfold same_params in *. simpl. rewrite Hsame.
       symmetry. apply sync_groups_same_params. }
  2: { left. by rewrite Hs2. }
  mlift Hinit fst_dev Hfirst.
  mmodify Hinit. mmodify Hinit.
  mstep Hinit pr s5 Hpr.
  apply param_to_rank_run in Hpr as (Hprv & _ & _ & Hg5 & Hw5 & Hex);
    [|exact Hfresh4|exact Hrank4].
  mmodify Hinit.
  match type of Hinit with
  | ?m ?st = _ =>
      assert (Hkeep : keeps (fun s => (param_groups s, bucket_size s)) st s')
  end.
  { match type of Hinit with
    | ?m ?st = _ =>
        assert (Hpres : preserves (keeps (fun s => (param_groups s, bucket_size s))) m);
          [| specialize (Hpres st); by rewrite Hinit in Hpres]
    end.
    pres_unfolding; unfold keeps; try reflexivity;
      by apply (put_bucket_keeps (fun s => (param_groups s, bucket_size s))). }
  unfold keeps in Hkeep. simpl in Hkeep.
  injection Hkeep as Hgroups Hbs.
  rewrite Hbs. f_equal.
  simpl in Hw5, Hg5, Hex.
  assert (Hws4 : world_size s4 = ws) by (rewrite Hw4, Hs2; done).
  rewrite Hws4 in Hex. destruct (Hex Hws) as (gs & Hsame & Hp).
  rewrite Hprv, Hgroups, Hg5.
  rewrite Hgroups, Hg5 in Hnd.
  by apply (model_size_partition ws gs _ _ Hws).
Qed.

Lemma C4_bucket_size_counts_all_parameters_witness :
  exists s',
    init [Examples.mixed_group] 100 (blank ∅ ∅ 1 0 None Examples.mixed_data)
      = (Some tt, s') /\
    bucket_size s' = 100 `min` total_numel (param_groups s').
Proof.
  eexists. split; [by vm_compute|].
  apply (C4_bucket_size_counts_all_parameters [Examples.mixed_group] 100 ∅ ∅ 1 0 None
           Examples.mixed_data).
  - lia.
  - by vm_compute.
  - apply (bool_decide_unpack _). by vm_compute.
Defined.

(** C4 as stated fails: with a trainable tensor of two elements, a frozen
    one of three and a maximum buffer size of 100, the capacity is 5, not
    the 2 trainable elements. *)
Lemma C4_counterexample :
  let r := init [Examples.mixed_group] 100 (blank ∅ ∅ 1 0 None Examples.mixed_data) in
  r.1 = Some tt /\
  bucket_size r.2 = 5 /\
  100 `min` trainable_numel (param_groups r.2) = 2 /\
  bucket_size r.2 <> 100 `min` trainable_numel (param_groups r.2).
Proof. by vm_compute. Qed.


End CapacityFacts.

(** ** Re-running the bucket setup *)

Section RebuildFacts.

#[local] Instance flags_extend_preorder : PreOrder flags_extend.
Proof.
  split.
  - intros s. unfold flags_extend. reflexivity.
  - intros s1 s2 s3. unfold flags_extend. intros H1 H2. by etrans.
Qed.

Lemma put_bucket_flags (device rk : nat) (b : Buffer) (s : OSS) :
  flags_extend s (put_bucket device rk b s).
Proof.
  unfold flags_extend.
  by rewrite (put_bucket_keeps should_bucket_param).
Qed.

(** No run of the bucket setup, complete or not, removes anything from the
    classification list. *)
Lemma setup_keeps_old_flags : preserves flags_extend _setup_bucket_strategy.
Proof.
  pres_unfolding; unfold flags_extend; simpl;
    first [ reflexivity | by apply prefix_app_r | apply put_bucket_flags ].
Qed.

(** C6 fails on the code: every run of [_setup_bucket_strategy] keeps the
    classification of the previous runs and appends its own behind it.
    On a wrapper over trainable tensors of 3, 2 and 5 elements with a
    capacity of 8, a second run, with nothing changed in between, leaves
    the buckets and the tensors as they were but doubles the classification
    list and counts three work handles where there were two. *)
Theorem C6_setup_accumulates_classification :
  (forall s, should_bucket_param s
               `prefix_of` should_bucket_param (_setup_bucket_strategy s).2) /\
  let built := Examples.built_once in
  let again := _setup_bucket_strategy built.2 in
  built.1 = Some tt /\ again.1 = Some tt /\
  should_bucket_param built.2 = [true; true; false] /\
  should_bucket_param again.2 = [true; true; false; true; true; false] /\
  _max_work_handles built.2 = 2%Z /\ _max_work_handles again.2 = 3%Z /\
  buckets again.2 = buckets built.2 /\ pdata again.2 = pdata built.2.
Proof.
  split; [apply setup_keeps_old_flags|]. by vm_compute.
Qed.

#[local] Instance partition_kept_preorder : PreOrder partition_kept.
Proof.
  split.
  - by intros s _.
  - intros s1 s2 s3 H1 H2 Hne. unfold partition_kept in *.
    rewrite H2; [by apply H1 | by rewrite H1].
Qed.

Lemma partition_parameters_kept : preserves partition_kept partition_parameters.
Proof.
  intros s Hne. unfold partition_parameters, bind, get.
  destruct (decide (length (_partition_parameters s) = 0)) as [Hnil | _]; [|done].
  by destruct (_partition_parameters s).
Qed.

(** Once a partition is cached, the bucket setup reads it and leaves it. *)
Lemma setup_keeps_partition : preserves partition_kept _setup_bucket_strategy.
Proof.
  unfold _setup_bucket_strategy, per_device_params, param_to_rank.
  repeat first
    [ apply partition_parameters_kept
    | pres_step
    | progress unfold bucket_device, bucket_rank, bucket_param ];
    intros Hne; try reflexivity; by apply (put_bucket_keeps _partition_parameters).
Qed.

Lemma last_is_Some {A : Type} (l : list A) : 1 <= length l -> is_Some (last l).
Proof.
  destruct l as [|x l] using rev_ind; simpl; [lia | intros _].
  rewrite last_snoc. by eexists.
Qed.

(** What [add_param_group] does before it re-runs the bucket setup, and
    keeps whether or not that setup then raises: the group is appended to
    the public groups, the cached partition is the partition of the new
    groups, and the wrapped optimizer receives the last group of this rank's
    shard exactly when the shard has one group more than it had. *)
Lemma add_param_group_effects (g : group) (s : OSS) :
  in_super_constructor s = false ->
  1 <= world_size s -> rank s < world_size s ->
  Forall (fun g => is_Some (group_params g)) (param_groups s ++ [g ∪ defaults s]) ->
  let s' := (add_param_group g s).2 in
  param_groups s' = param_groups s ++ [g ∪ defaults s] /\
  Partitioner.partition (world_size s) (param_groups s') = Some (_partition_parameters s') /\
  exists shard,
    _partition_parameters s' !! rank s = Some shard /\
    optim_param_groups s' =
      if decide (length shard = length (optim_param_groups s) + 1)
      then optim_param_groups s
             ++ match last shard with
                | Some new_group => [new_group ∪ optim_defaults s]
                | None => []
                end
      else optim_param_groups s.
Proof.
  intros Hctor Hws Hrank Hall s0.
  set (groups' := param_groups s ++ [g ∪ defaults s]) in *.
  destruct (partition_spec (world_size s) groups' Hws Hall) as (rss & sizes' & _ & Hpart).
  set (parts := (fun r => GreedySpec.shard_of r groups' rss) <$> seq 0 (world_size s)) in *.
  assert (Hparts_ne : parts <> []).
  { intros Hnil. apply (f_equal length) in Hnil.
    unfold parts in Hnil. rewrite length_fmap, length_seq in Hnil. simpl in Hnil. lia. }
  assert (Hshard : exists shard, parts !! rank s = Some shard).
  { apply lookup_lt_is_Some. unfold parts. by rewrite length_fmap, length_seq. }
  destruct Hshard as (shard & Hshard).
  set (opt' := if decide (length shard = length (optim_param_groups s) + 1)
               then optim_param_groups s
                      ++ match last shard with
                         | Some new_group => [new_group ∪ optim_defaults s]
                         | None => []
                         end
               else optim_param_groups s).
  set (s4 := set_optim_param_groups opt'
               (set_partition_parameters parts
                  (set_param_rank ∅ (set_per_device_params []
                     (set_partition_parameters [] (set_param_groups groups' s)))))).
  assert (Hrun : add_param_group g s = _setup_bucket_strategy s4).
  { unfold add_param_group, bind, modify, get, clear_caches, partition_parameters.
    simpl. rewrite Hctor. simpl.
    unfold bind, get, base_add_param_group. simpl. fold groups'.
    rewrite Hpart. simpl.
    fold parts. rewrite Hshard. simpl. unfold s4, opt'.
    destruct (decide (length shard = length (optim_param_groups s) + 1)) as [Hlen | Hlen].
    - destruct (last_is_Some shard) as [ng Hng]; [lia|].
      rewrite Hng. simpl. unfold base_add_param_group. by destruct s.
    - simpl. by destruct s. }
  unfold s0. rewrite Hrun.
  pose proof (setup_untouched s4) as Hkeep.
  pose proof (setup_keeps_partition s4 Hparts_ne) as Hpk.
  unfold keeps, untouched_by_setup in Hkeep.
  injection Hkeep as Hg Hd Ho _.
  rewrite Hg, Hpk, Ho. simpl.
  split; [done|]. split; [done|]. by exists shard.
Qed.

(** C9 fails on the code: [add_param_group] appends the group, recomputes
    the partition and the index and hands the wrapped optimizer its new
    group, but the Bucket state is not invalidated: the classification of
    the previous run stays in front of the new one and the buckets cut by
    the previous run are walked again.
    On the repository's [run_test_add_param_group] as written (trainable
    tensors of 4, 5, 2, 6 and 4 elements over three ranks, then a group with
    one tensor of 3 elements that does not require a gradient), seen from
    rank 1, the call returns; the partition, the index and this rank's
    optimizer groups are those of a wrapper built over both groups; but
    the classification holds the five old flags followed by the six new
    ones, and since a step reads the flags from the front, the added tensor
    is taken for a bucketed one and is not broadcast at all, where the
    wrapper built over both groups broadcasts it from rank 1.
    With a trainable tensor of 3 elements added instead, the call raises on
    rank 1: the new tensor has been copied over the start of the tensor of
    5 elements aliased there, and that tensor's own copy does not fit the
    bucket of 5 elements. *)
Theorem C9_add_param_group_keeps_stale_bucket_state :
  let before := Examples.suite_rank 1 in
  let after := add_param_group Examples.frozen_group before.2 in
  let whole := Examples.suite_whole 1 in
  let grown := add_param_group Examples.added_group before.2 in
  let old_param := mkParam 1 0 5 true in
  let bucket := fun r => mkHandle (TBucket 0 r) r in
  let direct := mkHandle (TParam Examples.frozen_added) 1 in
  before.1 = Some tt /\ after.1 = Some tt /\ whole.1 = Some tt /\
  length (param_groups after.2) = 2 /\
  Partitioner.partition 3 (param_groups after.2) = Some (_partition_parameters after.2) /\
  _partition_parameters after.2 = _partition_parameters whole.2 /\
  _per_device_params after.2 = _per_device_params whole.2 /\
  optim_param_groups after.2 = optim_param_groups whole.2 /\
  groups_params (optim_param_groups after.2) = [old_param; Examples.frozen_added] /\
  should_bucket_param before.2 = [true; true; true; true; true] /\
  should_bucket_param whole.2 = [true; true; false; true; true; true] /\
  should_bucket_param after.2 = should_bucket_param before.2 ++ should_bucket_param whole.2 /\
  trace (step (Collab := Examples.example_collab) None after.2).2
    = [EvOptimStep; EvBroadcast (bucket 0); EvBroadcast (bucket 1); EvBroadcast (bucket 2);
       EvWait (bucket 0); EvWait (bucket 1); EvWait (bucket 2)] /\
  trace (step (Collab := Examples.example_collab) None whole.2).2
    = [EvOptimStep; EvBroadcast (bucket 0); EvBroadcast direct; EvBroadcast (bucket 1);
       EvBroadcast (bucket 2);
       EvWait (bucket 0); EvWait direct; EvWait (bucket 1); EvWait (bucket 2)] /\
  grown.1 = None /\
  Partitioner.partition 3 (param_groups grown.2) = Some (_partition_parameters grown.2) /\
  groups_params (optim_param_groups grown.2) = [old_param; Examples.added_param] /\
  should_bucket_param grown.2 = should_bucket_param before.2 ++ [true; true; true; true] /\
  (bsize <$> get_bucket grown.2 0 1) = Some 5 /\
  read_data before.2 old_param = Some [1; 1; 1; 1; 1]%Z /\
  read_data grown.2 old_param = Some [5; 5; 5; 1; 1]%Z.
Proof.
  intros before after whole grown old_param bucket direct.
  repeat apply conj;
    first [ apply (bool_decide_unpack _); by vm_compute | by vm_compute ].
Qed.

End RebuildFacts.

(** ** Saving and reloading the state *)

Section RoundTripFacts.
Import Examples.

(** C1 fails on the code. [state_dict] numbers the state entries afresh
    over all the ranks but keeps, in the groups, the ids every rank gave
    locally, and [load_state_dict] pairs those ids with the parameters of
    the local optimizer only. With two groups on two ranks, reloading on the
    recipient itself gives the state of tensor 0 to tensor 2 and none to
    tensor 0; with one group, reloading on the other rank gives it the state
    of the recipient's tensor; and on a single rank, a frozen first tensor
    receives the state of the trainable one behind it. In every case the
    fresh wrapper's state differs from the state that was saved for its
    tensors. *)
Theorem C1_round_trip_mismatch :
  let quad := rt_saved example_collab [front_group; back_group] quad_data 2 quad_state 0 in
  let quad0 := rt_loaded example_collab [front_group; back_group] quad_data 2 quad_state 0 0 in
  let pair1 := rt_loaded example_collab [pair_group] quad_data 2 pair_state 0 1 in
  let thaw := rt_saved example_collab [thaw_group] thaw_data 1 thaw_state 0 in
  let thaw0 := rt_loaded example_collab [thaw_group] thaw_data 1 thaw_state 0 0 in
  (sd_state <$> quad) = Some [(0, mkBlob 0 10); (1, mkBlob 0 12);
                              (2, mkBlob 0 11); (3, mkBlob 0 13)] /\
  (chain_ids <$> (sd_param_groups <$> quad)) = Some (Some [0; 0; 1; 1]) /\
  ((fun r => (r.1, optim_state r.2)) <$> quad0)
    = Some (Some tt, [(tensor1 2, mkBlob 0 10)]) /\
  quad_state 0 = [(tensor1 0, mkBlob 0 10); (tensor1 2, mkBlob 0 12)] /\
  ((fun r => (r.1, optim_state r.2)) <$> pair1)
    = Some (Some tt, [(tensor1 1, mkBlob 0 10)]) /\
  pair_state 1 = [(tensor1 1, mkBlob 0 11)] /\
  (sd_state <$> thaw) = Some [(0, mkBlob 0 11)] /\
  ((fun r => (r.1, optim_state r.2)) <$> thaw0)
    = Some (Some tt, [(frozen0, mkBlob 0 11)]) /\
  thaw_state 0 = [(tensor1 1, mkBlob 0 11)].
Proof. by vm_compute. Qed.

(** With a wrapped optimizer that names the tensors by identity, no saved
    entry is restored at all, not even on the recipient. *)
Example round_trip_identity_ids :
  ((fun r => optim_state r.2)
     <$> rt_loaded identity_collab [pair_group] quad_data 2 pair_state 0 0) = Some [] /\
  ((fun r => optim_state r.2)
     <$> rt_loaded identity_collab [pair_group] quad_data 2 pair_state 0 1) = Some [].
Proof. by vm_compute. Qed.

(** On a single rank with one group whose tensors all have state, the
    reload restores every entry. *)
Example round_trip_single_rank :
  ((fun r => optim_state r.2)
     <$> rt_loaded example_collab [pair_group] quad_data 1
           (fun _ => [state1 0; state1 1]) 0 0)
  = Some [state1 0; state1 1].
Proof. by vm_compute. Qed.

End RoundTripFacts.
